(** * mpm-js: a shallow embedding of the MPM/APIC kernel

    The embedding follows [src/mpm/Grid.ts] and [src/mpm/MPMSystem.ts].

    Number model.  A JavaScript [number] is modelled as an exact rational
    ([Q]); rounding, infinities and NaN of IEEE doubles are abstracted away,
    so [1/0] is [0] as in [Qinv].  Equations between numbers are stated
    with [==] ([Qeq]).  Numbers that the program only ever uses as integers
    (cell indices, the grid size, loop counters, neighbour offsets) are
    modelled as [Z].

    Exceptions.  Reading a field of [undefined] (an array access out of
    range followed by a field access) throws in JavaScript; functions that
    can do so return [option], [None] standing for the exception. *)

From Stdlib Require Import ZArith QArith Qround Qabs Qminmax Lia Lqa Bool.
From stdpp Require Import base option list.

Local Open Scope Q_scope.

(** ** The part of three.js the kernel uses *)

Module THREE.

(** [THREE.Vector3], fields [x], [y], [z]. *)
Record Vector3 : Type := mkVector3 { x : Q; y : Q; z : Q }.

(** A [THREE.Vector3] whose three components are integers. *)
Record IVector3 : Type := mkIVector3 { ix : Z; iy : Z; iz : Z }.

(** [THREE.Matrix3]: nine [elements] in column-major order. *)
Record Matrix3 : Type := mkElements {
  e0 : Q; e1 : Q; e2 : Q;
  e3 : Q; e4 : Q; e5 : Q;
  e6 : Q; e7 : Q; e8 : Q }.

(** [Matrix3.set(n11, n12, ..., n33)]: arguments in row-major order,
    storage in column-major order.  [new Matrix3(n11, ...)] calls it. *)
Definition Matrix3_set (n11 n12 n13 n21 n22 n23 n31 n32 n33 : Q) : Matrix3 :=
  {| e0 := n11; e1 := n21; e2 := n31;
     e3 := n12; e4 := n22; e5 := n32;
     e6 := n13; e7 := n23; e8 := n33 |}.

Definition add (a b : Vector3) : Vector3 :=
  mkVector3 (x a + x b) (y a + y b) (z a + z b).
Definition sub (a b : Vector3) : Vector3 :=
  mkVector3 (x a - x b) (y a - y b) (z a - z b).
Definition multiply (a b : Vector3) : Vector3 :=
  mkVector3 (x a * x b) (y a * y b) (z a * z b).
Definition divide (a b : Vector3) : Vector3 :=
  mkVector3 (x a / x b) (y a / y b) (z a / z b).
Definition addScalar (a : Vector3) (s : Q) : Vector3 :=
  mkVector3 (x a + s) (y a + s) (z a + s).
Definition multiplyScalar (a : Vector3) (s : Q) : Vector3 :=
  mkVector3 (x a * s) (y a * s) (z a * s).
(** three.js: [divideScalar(s) { return this.multiplyScalar(1 / s); }] *)
Definition divideScalar (a : Vector3) (s : Q) : Vector3 :=
  multiplyScalar a (1 / s).
Definition setScalar (s : Q) : Vector3 := mkVector3 s s s.
Definition floor (a : Vector3) : IVector3 :=
  mkIVector3 (Qfloor (x a)) (Qfloor (y a)) (Qfloor (z a)).
Definition max (a b : Vector3) : Vector3 :=
  mkVector3 (Qmax (x a) (x b)) (Qmax (y a) (y b)) (Qmax (z a) (z b)).
Definition min (a b : Vector3) : Vector3 :=
  mkVector3 (Qmin (x a) (x b)) (Qmin (y a) (y b)) (Qmin (z a) (z b)).

Definition ofIndex (i : IVector3) : Vector3 :=
  mkVector3 (inject_Z (ix i)) (inject_Z (iy i)) (inject_Z (iz i)).
Definition iadd (a b : IVector3) : IVector3 :=
  mkIVector3 (ix a + ix b) (iy a + iy b) (iz a + iz b).

(** [Vector3.applyMatrix3(m)] *)
Definition applyMatrix3 (v : Vector3) (m : Matrix3) : Vector3 :=
  mkVector3 (e0 m * x v + e3 m * y v + e6 m * z v)
            (e1 m * x v + e4 m * y v + e7 m * z v)
            (e2 m * x v + e5 m * y v + e8 m * z v).

(** [Matrix3.multiplyScalar(s)] *)
Definition mmultiplyScalar (m : Matrix3) (s : Q) : Matrix3 :=
  mkElements (e0 m * s) (e1 m * s) (e2 m * s)
             (e3 m * s) (e4 m * s) (e5 m * s)
             (e6 m * s) (e7 m * s) (e8 m * s).

(** [Matrix3.multiply(m)], that is [multiplyMatrices(this, m)]. *)
Definition mmultiply (a b : Matrix3) : Matrix3 :=
  let a11 := e0 a in let a12 := e3 a in let a13 := e6 a in
  let a21 := e1 a in let a22 := e4 a in let a23 := e7 a in
  let a31 := e2 a in let a32 := e5 a in let a33 := e8 a in
  let b11 := e0 b in let b12 := e3 b in let b13 := e6 b in
  let b21 := e1 b in let b22 := e4 b in let b23 := e7 b in
  let b31 := e2 b in let b32 := e5 b in let b33 := e8 b in
  {| e0 := a11 * b11 + a12 * b21 + a13 * b31;
     e3 := a11 * b12 + a12 * b22 + a13 * b32;
     e6 := a11 * b13 + a12 * b23 + a13 * b33;
     e1 := a21 * b11 + a22 * b21 + a23 * b31;
     e4 := a21 * b12 + a22 * b22 + a23 * b32;
     e7 := a21 * b13 + a22 * b23 + a23 * b33;
     e2 := a31 * b11 + a32 * b21 + a33 * b31;
     e5 := a31 * b12 + a32 * b22 + a33 * b32;
     e8 := a31 * b13 + a32 * b23 + a33 * b33 |}.

(** [Matrix3.invert()]: the zero matrix when the determinant is zero. *)
Definition invert (m : Matrix3) : Matrix3 :=
  let n11 := e0 m in let n21 := e1 m in let n31 := e2 m in
  let n12 := e3 m in let n22 := e4 m in let n32 := e5 m in
  let n13 := e6 m in let n23 := e7 m in let n33 := e8 m in
  let t11 := n33 * n22 - n32 * n23 in
  let t12 := n32 * n13 - n33 * n12 in
  let t13 := n23 * n12 - n22 * n13 in
  let det := n11 * t11 + n21 * t12 + n31 * t13 in
  if Qeq_bool det 0 then Matrix3_set 0 0 0 0 0 0 0 0 0
  else
    let detInv := 1 / det in
    {| e0 := t11 * detInv;
       e1 := (n31 * n23 - n33 * n21) * detInv;
       e2 := (n32 * n21 - n31 * n22) * detInv;
       e3 := t12 * detInv;
       e4 := (n33 * n11 - n31 * n13) * detInv;
       e5 := (n31 * n12 - n32 * n11) * detInv;
       e6 := t13 * detInv;
       e7 := (n21 * n13 - n23 * n11) * detInv;
       e8 := (n22 * n11 - n21 * n12) * detInv |}.

(** [THREE.Box3] *)
Record Box3 : Type := mkBox3 { bmin : Vector3; bmax : Vector3 }.

End THREE.

(** ** MathUtils.ts *)

Definition ZeroVector3 : THREE.Vector3 := THREE.mkVector3 0 0 0.
Definition ZeroMatrix3 : THREE.Matrix3 := THREE.Matrix3_set 0 0 0 0 0 0 0 0 0.

(** JavaScript comparisons on numbers. *)
Definition Qlt_bool (a b : Q) : bool := negb (Qle_bool b a).

(** ** Grid.ts *)

Module Cell.

Record t : Type := mk {
  mass : Q;
  mv : THREE.Vector3;
  vel : THREE.Vector3;
  force : THREE.Vector3 }.

(** [new Cell()] *)
Definition new : t := mk 0 ZeroVector3 ZeroVector3 ZeroVector3.

Definition clear (c : t) : t := mk 0 ZeroVector3 ZeroVector3 ZeroVector3.

Definition reset (c : t) : t :=
  mk 0 (THREE.setScalar 0) (THREE.setScalar 0) (THREE.setScalar 0).

End Cell.

Module Grid.

Import THREE.

Record t : Type := mk {
  size : IVector3;
  cellSize : Q;
  leftBottomBackPos : Vector3;
  data : list Cell.t }.

Definition is2D (g : t) : bool := Z.eqb (iz (size g)) 1.

Definition cellDimensions (g : t) : Vector3 :=
  mkVector3 (cellSize g) (cellSize g) (if is2D g then 1 else cellSize g).
Definition gridDimensions (g : t) : Vector3 :=
  multiply (cellDimensions g) (ofIndex (size g)).
Definition invCellDimensions (g : t) : Vector3 :=
  mkVector3 (1 / cellSize g) (1 / cellSize g)
            (if is2D g then 1 else 1 / cellSize g).
Definition getH (g : t) : Vector3 := cellDimensions g.
Definition getInvH (g : t) : Vector3 := invCellDimensions g.

Definition cellVolume (g : t) : Q :=
  let cellDims := cellDimensions g in
  x cellDims * y cellDims * z cellDims.

Definition getBounds (g : t) : Box3 :=
  mkBox3 (leftBottomBackPos g) (add (gridDimensions g) (leftBottomBackPos g)).

(** [_initData]: [dataLength] fresh cells. *)
Definition _initData (size : IVector3) : list Cell.t :=
  let dataLength := (ix size * iy size * iz size)%Z in
  replicate (Z.to_nat dataLength) Cell.new.

(** The constructor. *)
Definition new (size : IVector3) (cellSize : Q) (leftBottomBackPos : Vector3)
  : t :=
  mk size cellSize leftBottomBackPos (_initData size).

Definition _toFlatIndex (g : t) (xIdx yIdx zIdx : Z) : Z :=
  (xIdx + yIdx * ix (size g) + zIdx * ix (size g) * iy (size g))%Z.

Definition withData (g : t) (d : list Cell.t) : t :=
  mk (size g) (cellSize g) (leftBottomBackPos g) d.

Definition resetCells (g : t) : t :=
  withData g (Cell.reset <$> data g).

(** [this.data[flatIdx]]: [undefined] (here [None]) out of range. *)
Definition dataAt (d : list Cell.t) (flatIdx : Z) : option Cell.t :=
  if (flatIdx <? 0)%Z then None else d !! Z.to_nat flatIdx.

Definition getCell (g : t) (idx : IVector3) : option Cell.t :=
  let flatIdx := _toFlatIndex g (ix idx) (iy idx) (iz idx) in
  dataAt (data g) flatIdx.

Definition isValidCellIndex (g : t) (xIdx yIdx zIdx : Z) : bool :=
  let flatIdx := _toFlatIndex g xIdx yIdx zIdx in
  (0 <=? flatIdx)%Z && (flatIdx <? Z.of_nat (length (data g)))%Z.

Definition cellIndexToPosition (g : t) (xIdx yIdx zIdx : Z) : Vector3 :=
  let v := multiplyScalar
             (addScalar (ofIndex (mkIVector3 xIdx yIdx zIdx)) (1 # 2))
             (cellSize g) in
  add v (leftBottomBackPos g).

Definition cellPositionToIndex (g : t) (pos : Vector3) : IVector3 :=
  floor (divide (sub pos (leftBottomBackPos g)) (cellDimensions g)).

Definition getNQuadratic (x : Q) : Q :=
  let x := Qabs x in
  if Qlt_bool x (1 # 2) then (3 # 4) - x * x
  else if Qlt_bool x (3 # 2) then (1 # 2) * ((3 # 2) - x) * ((3 # 2) - x)
  else 0.

Definition getNQuadraticDerivative (x : Q) : Q :=
  let x := Qabs x in
  if Qlt_bool x (1 # 2) then -(2) * x
  else if Qlt_bool x (3 # 2)
       then (if Qlt_bool 0 x then x - (3 # 2) else - (x - (3 # 2)))
  else 0.

Definition getWeight (g : t) (pos : Vector3) (delta : IVector3) : Q :=
  let gridIndex := iadd (cellPositionToIndex g pos) delta in
  if negb (isValidCellIndex g (ix gridIndex) (iy gridIndex) (iz gridIndex))
  then 0
  else
    let gridPos :=
      cellIndexToPosition g (ix gridIndex) (iy gridIndex) (iz gridIndex) in
    let dis := divide (sub pos gridPos) (getH g) in
    getNQuadratic (x dis) * getNQuadratic (y dis) *
      (if is2D g then 1 else getNQuadratic (z dis)).

Definition getWeightGradient (g : t) (pos : Vector3) (delta : IVector3)
  : Vector3 :=
  let gridIndex := iadd (cellPositionToIndex g pos) delta in
  if negb (isValidCellIndex g (ix gridIndex) (iy gridIndex) (iz gridIndex))
  then ZeroVector3
  else
    let gridPos :=
      cellIndexToPosition g (ix gridIndex) (iy gridIndex) (iz gridIndex) in
    let invH := getInvH g in
    let dis := multiply (sub pos gridPos) invH in
    let wx := getNQuadratic (x dis) in
    let wy := getNQuadratic (y dis) in
    let wz := if is2D g then 1 else getNQuadratic (z dis) in
    let wdx := getNQuadraticDerivative (x dis) in
    let wdy := getNQuadraticDerivative (y dis) in
    let wdz := if is2D g then 1 else getNQuadraticDerivative (z dis) in
    multiply invH (mkVector3 (wdx * wy * wz) (wx * wdy * wz) (wx * wy * wdz)).

Definition getDQuadratic (g : t) : Matrix3 :=
  let H := getH g in
  let v := multiplyScalar (multiply H H) (1 # 4) in
  Matrix3_set (x v) 0 0
              0 (y v) 0
              0 0 (z v).

End Grid.

(** ** MPMSystem.ts *)

Definition GRID_SIZE : Z := 64.
Definition HALF_GRID_SIZE : Z := (GRID_SIZE / 2)%Z.
Definition GRAVITY : THREE.Vector3 := THREE.mkVector3 0 (- (98 # 10)) 0.

Module Particle.

Record t : Type := mk {
  active : bool;
  mass : Q;
  pos : THREE.Vector3;
  vel : THREE.Vector3;
  B : THREE.Matrix3 }.

(** [new Particle(active, mass, pos)]; [vel] takes its default. *)
Definition new (active : bool) (mass : Q) (pos : THREE.Vector3) : t :=
  mk active mass pos ZeroVector3 ZeroMatrix3.

End Particle.

(** A [for] loop whose body may throw: the iterations run in list order
    and the first exception ends the loop. *)
Fixpoint forEach {A S : Type} (body : S -> A -> option S) (l : list A) (s : S)
  : option S :=
  match l with
  | [] => Some s
  | a :: l' =>
      match body s a with
      | Some s' => forEach body l' s'
      | None => None
      end
  end.

(** [for (let i = 0; i < n; i++)]: the values [i] takes. *)
Definition upTo (n : Z) : list Z := seqZ 0 n.

Module MPMSystem.

Import THREE.

Record t : Type := mk {
  grid : Grid.t;
  particles : list Particle.t }.

(** The constructor, [cellSize] defaulting to [0.1] at the call site. *)
Definition new (cellSize : Q) : t :=
  mk (Grid.new (mkIVector3 GRID_SIZE GRID_SIZE 1)
               cellSize
               (multiplyScalar
                  (mkVector3 (inject_Z (- HALF_GRID_SIZE))
                             (inject_Z (- HALF_GRID_SIZE)) 0)
                  cellSize))
     [].

(** The particle counts of [addParticles].  [divideScalar] and [floor]
    work in place, so [numParticles] and [boxDim] are one object and the
    test [boxDim.z == 0] reads the floored quotient. *)
Definition numParticles (min max : Vector3) (size : Q) : IVector3 :=
  let boxDim := sub max min in
  let numParticles := floor (divideScalar boxDim size) in
  if (iz numParticles =? 0)%Z
  then mkIVector3 (ix numParticles) (iy numParticles) 1
  else numParticles.

Definition addParticles (s : t) (min max : Vector3) (size mass : Q) : t :=
  let halfSize := size / 2 in
  let numParticles := numParticles min max size in
  let new :=
    x' ← upTo (ix numParticles);
    y' ← upTo (iy numParticles);
    z' ← upTo (iz numParticles);
    [Particle.new true mass
       (mkVector3 (x min + inject_Z x' * size + halfSize)
                  (y min + inject_Z y' * size + halfSize)
                  (z min + inject_Z z' * size + halfSize))] in
  mk (grid s) (particles s ++ new).

(** The offsets [(gx, gy, gz)] of the neighbour loops, in loop order. *)
Definition neighbourDeltas (is2D : bool) : list IVector3 :=
  let gzInit := if is2D then 0%Z else (-1)%Z in
  let gzEnd := if is2D then 0%Z else 1%Z in
  gx ← seqZ (-1) 3;
  gy ← seqZ (-1) 3;
  gz ← seqZ gzInit (gzEnd - gzInit + 1);
  [mkIVector3 gx gy gz].

(** Body of the innermost loop of [_particleToGrid] for particle [p],
    whose [B] already holds [apic]. *)
Definition p2gCell (g : Grid.t) (p : Particle.t) (gridIdx : IVector3)
           (apic : Matrix3) (d : list Cell.t) (delta : IVector3)
  : option (list Cell.t) :=
  let g' := Grid.withData g d in
  let idx := iadd gridIdx delta in
  if negb (Grid.isValidCellIndex g' (ix idx) (iy idx) (iz idx)) then Some d
  else
    let weight := Grid.getWeight g' (Particle.pos p) delta in
    let gridPos := Grid.cellIndexToPosition g' (ix idx) (iy idx) (iz idx) in
    cell ← Grid.getCell g' idx;
    let mass' := Cell.mass cell + weight * Particle.mass p in
    let mv' :=
      add (Cell.mv cell)
          (multiplyScalar
             (add (applyMatrix3 (sub gridPos (Particle.pos p)) apic)
                  (Particle.vel p))
             (weight * Particle.mass p)) in
    Some (<[Z.to_nat (Grid._toFlatIndex g' (ix idx) (iy idx) (iz idx))
            := Cell.mk mass' mv' (Cell.vel cell) (Cell.force cell)]> d).

(** One iteration of the particle loop of [_particleToGrid]:
    [p.B.multiply(Dinv)] overwrites [p.B]. *)
Definition p2gParticle (g : Grid.t) (Dinv : Matrix3)
           (st : list Cell.t * list Particle.t) (p : Particle.t)
  : option (list Cell.t * list Particle.t) :=
  let gridIdx := Grid.cellPositionToIndex g (Particle.pos p) in
  let apic := mmultiply (Particle.B p) Dinv in
  let p' := Particle.mk (Particle.active p) (Particle.mass p)
                        (Particle.pos p) (Particle.vel p) apic in
  d ← forEach (p2gCell g p' gridIdx apic)
              (neighbourDeltas (Grid.is2D g)) (st.1);
  Some (d, st.2 ++ [p']).

Definition _particleToGrid (g : Grid.t) (ps : list Particle.t)
  : option (Grid.t * list Particle.t) :=
  let Dinv := invert (Grid.getDQuadratic g) in
  st ← forEach (p2gParticle g Dinv) ps (Grid.data g, []);
  Some (Grid.withData g st.1, st.2).

(** Body of the innermost loop of [_updateGrid] on the cell it fetched. *)
Definition updateCell (size : IVector3) (is2D : bool) (dt : Q)
           (idx : IVector3) (cell : Cell.t) : Cell.t :=
  if Qle_bool (Cell.mass cell) 0 then Cell.clear cell
  else
    let vel := divideScalar (Cell.mv cell) (Cell.mass cell) in
    let vel := add vel
                   (multiplyScalar
                      (add (divideScalar (Cell.force cell) (Cell.mass cell))
                           GRAVITY)
                      dt) in
    let vel := if ((ix idx <? 2) || (ix size - 2 <=? ix idx))%Z
               then mkVector3 0 (y vel) (z vel) else vel in
    let vel := if ((iy idx <? 2) || (iy size - 2 <=? iy idx))%Z
               then mkVector3 (x vel) 0 (z vel) else vel in
    let vel := if negb is2D && ((iz idx <? 2) || (iz size - 2 <=? iz idx))%Z
               then mkVector3 (x vel) (y vel) 0 else vel in
    Cell.mk (Cell.mass cell) (Cell.mv cell) vel (Cell.force cell).

(** The index triples [(x, y, z)] of the loops of [_updateGrid], in order. *)
Definition cellIndices (size : IVector3) : list IVector3 :=
  x' ← upTo (ix size);
  y' ← upTo (iy size);
  z' ← upTo (iz size);
  [mkIVector3 x' y' z'].

Definition updateGridCell (g : Grid.t) (dt : Q) (d : list Cell.t)
           (idx : IVector3) : option (list Cell.t) :=
  let g' := Grid.withData g d in
  cell ← Grid.getCell g' idx;
  Some (<[Z.to_nat (Grid._toFlatIndex g' (ix idx) (iy idx) (iz idx))
          := updateCell (Grid.size g) (Grid.is2D g) dt idx cell]> d).

Definition _updateGrid (g : Grid.t) (dt : Q) : option Grid.t :=
  d ← forEach (updateGridCell g dt) (cellIndices (Grid.size g)) (Grid.data g);
  Some (Grid.withData g d).

Definition outerMulVec3 (v1 v2 : Vector3) : Matrix3 :=
  Matrix3_set (x v1 * x v2) (x v1 * y v2) (x v1 * z v2)
              (y v1 * x v2) (y v1 * y v2) (y v1 * z v2)
              (z v1 * x v2) (z v1 * y v2) (z v1 * z v2).

(** [m1.set] receives the element-wise sums in storage order. *)
Definition addInPlaceMatrix3 (m1 m2 : Matrix3) : Matrix3 :=
  Matrix3_set (e0 m1 + e0 m2) (e1 m1 + e1 m2) (e2 m1 + e2 m2)
              (e3 m1 + e3 m2) (e4 m1 + e4 m2) (e5 m1 + e5 m2)
              (e6 m1 + e6 m2) (e7 m1 + e7 m2) (e8 m1 + e8 m2).

(** Body of the innermost loop of [_gridToParticle].  [multiplyScalar]
    scales [cellVel] in place before [outerMulVec3] reads it. *)
Definition g2pCell (g : Grid.t) (gridIdx : IVector3) (p : Particle.t)
           (delta : IVector3) : option Particle.t :=
  let idx := iadd gridIdx delta in
  if negb (Grid.isValidCellIndex g (ix idx) (iy idx) (iz idx)) then Some p
  else
    let weight := Grid.getWeight g (Particle.pos p) delta in
    let gridPos := Grid.cellIndexToPosition g (ix idx) (iy idx) (iz idx) in
    cell ← Grid.getCell g idx;
    let cellVel := multiplyScalar (Cell.vel cell) weight in
    let vel' := add (Particle.vel p) cellVel in
    let m := mmultiplyScalar
               (outerMulVec3 cellVel (sub gridPos (Particle.pos p))) weight in
    Some (Particle.mk (Particle.active p) (Particle.mass p) (Particle.pos p)
                      vel' (addInPlaceMatrix3 (Particle.B p) m)).

Definition g2pParticle (g : Grid.t) (dt : Q) (gridBounds : Box3)
           (p : Particle.t) : option Particle.t :=
  let p0 := Particle.mk (Particle.active p) (Particle.mass p)
                        (Particle.pos p) ZeroVector3 ZeroMatrix3 in
  let gridIdx := Grid.cellPositionToIndex g (Particle.pos p0) in
  p1 ← forEach (g2pCell g gridIdx) (neighbourDeltas (Grid.is2D g)) p0;
  let pos := add (Particle.pos p1) (multiplyScalar (Particle.vel p1) dt) in
  let pos := max pos (bmin gridBounds) in
  let pos := min pos (bmax gridBounds) in
  Some (Particle.mk (Particle.active p1) (Particle.mass p1) pos
                    (Particle.vel p1) (Particle.B p1)).

Definition _gridToParticle (g : Grid.t) (ps : list Particle.t) (dt : Q)
  : option (list Particle.t) :=
  let gridBounds := Grid.getBounds g in
  forEach (fun done p =>
             p' ← g2pParticle g dt gridBounds p; Some (done ++ [p']))
          ps [].

Definition step (s : t) (dt : Q) : option t :=
  if Qle_bool dt 0 then Some s
  else
    let g := Grid.resetCells (grid s) in
    st ← _particleToGrid g (particles s);
    g ← _updateGrid st.1 dt;
    ps ← _gridToParticle g st.2 dt;
    Some (mk g ps).

(** A caller stepping once per tick with the time steps [dts]. *)
Definition steps (s : t) (dts : list Q) : option t := forEach step dts s.

End MPMSystem.


(** ** app.ts

    Of the rendering harness, the arithmetic on the orthographic view: the
    four bounds of the camera, the aspect ratio and the zoom target.  The
    bounds are numbers from the constructor on ([Nullable] in Babylon, never
    [null] here); for a number [a], [a || b] is [b] when [a] is [0] and [a]
    otherwise. *)

Module App.

Record Camera : Type := mkCamera {
  orthoLeft : Q;
  orthoRight : Q;
  orthoTop : Q;
  orthoBottom : Q;
  panningSensibility : Q }.

Record t : Type := mk {
  camera : Camera;
  aspectRatio : Q;
  zoomTargetX : Q;
  zoomTargetY : Q }.

(** [a || b] on numbers. *)
Definition orElse (a b : Q) : Q := if Qeq_bool a 0 then b else a.

Definition updateCameraSensitivity (c : Camera) : Camera :=
  let orthoLeft' := orElse (orthoLeft c) 0 in
  let orthoRight' := orElse (orthoRight c) 0 in
  mkCamera (orthoLeft c) (orthoRight c) (orthoTop c) (orthoBottom c)
           (6000 / Qabs (orthoLeft' - orthoRight')).

(** [handle_resize], given what [getRenderingCanvasClientRect()] returns:
    [None] for [null], else the width and the height of the canvas. *)
Definition handle_resize (a : t) (canvasRect : option (Q * Q)) : t :=
  match canvasRect with
  | None => a
  | Some (width, height) =>
      let aspectRatio' := width / height in
      let c := camera a in
      let c1 := mkCamera (orthoLeft c)
                         (orElse (orthoTop c) 1 * aspectRatio')
                         (orthoTop c) (orthoBottom c)
                         (panningSensibility c) in
      let c2 := mkCamera (orElse (orthoBottom c1) (- (1)) * aspectRatio')
                         (orthoRight c1) (orthoTop c1) (orthoBottom c1)
                         (panningSensibility c1) in
      mk (updateCameraSensitivity c2) aspectRatio'
         (zoomTargetX a) (zoomTargetY a)
  end.

(** [zoom2DView(this.camera, delta)]; [this.zoomTarget] is always set. *)
Definition zoom2DView (a : t) (delta : Q) : t :=
  let camera := camera a in
  let totalX := Qabs (orthoLeft camera - orthoRight camera) in
  let totalY := Qabs (orthoTop camera - orthoBottom camera) in
  let newOrthoLeft :=
    let fromCoord := orthoLeft camera - zoomTargetX a in
    let ratio := fromCoord / totalX in
    orthoLeft camera - ratio * delta * aspectRatio a in
  let newOrthoRight :=
    let fromCoord := orthoRight camera - zoomTargetX a in
    let ratio := fromCoord / totalX in
    orthoRight camera - ratio * delta * aspectRatio a in
  let newOrthoTop :=
    let fromCoord := orthoTop camera - zoomTargetY a in
    let ratio := fromCoord / totalY in
    orthoTop camera - ratio * delta in
  let newOrthoBottom :=
    let fromCoord := orthoBottom camera - zoomTargetY a in
    let ratio := fromCoord / totalY in
    orthoBottom camera - ratio * delta in
  if Qlt_bool newOrthoLeft newOrthoRight
     && Qlt_bool newOrthoBottom newOrthoTop
     && Qlt_bool 2 (newOrthoRight - newOrthoLeft)
     && Qlt_bool 2 (newOrthoTop - newOrthoBottom)
  then
    mk (updateCameraSensitivity
          (mkCamera newOrthoLeft newOrthoRight newOrthoTop newOrthoBottom
                    (panningSensibility camera)))
       (aspectRatio a) (zoomTargetX a) (zoomTargetY a)
  else a.

(** The [delta] the pointer-wheel handler passes to [zoom2DView]:
    [-(Math.max(-1, Math.min(1, (-event.detail || event.deltaY)))) * 0.2]. *)
Definition pointerWheelDelta (detail deltaY : Q) : Q :=
  - (Qmax (- (1)) (Qmin 1 (orElse (- detail) deltaY))) * (2 # 10).

(** The render loop: one [step(0.01)] per frame. *)
Definition renderLoopDt : Q := 1 # 100.

Definition renderFrames (mpm : MPMSystem.t) (frames : nat)
  : option MPMSystem.t :=
  MPMSystem.steps mpm (replicate frames renderLoopDt).

(** The particles the constructor seeds:
    [addParticles((-1.6,-1.6,0), (1.6,1.6,0), 0.1, 1)] on [new MPMSystem()]. *)
Definition mpm0 : MPMSystem.t :=
  MPMSystem.addParticles (MPMSystem.new (1 # 10))
    (THREE.mkVector3 (- (16 # 10)) (- (16 # 10)) 0)
    (THREE.mkVector3 (16 # 10) (16 # 10) 0) (1 # 10) 1.

End App.

(** * Properties *)

Import THREE.

(** ** Vocabulary of the statements *)

(** Componentwise equality of vectors as numbers. *)
Definition veq (a b : Vector3) : Prop :=
  x a == x b /\ y a == y b /\ z a == z b.

(** The four positions C1 names, and the four the code produces. *)
Definition seedsClaimed : list Vector3 :=
  [ mkVector3 (1 # 4) (1 # 4) 0; mkVector3 (1 # 4) (3 # 4) 0;
    mkVector3 (3 # 4) (1 # 4) 0; mkVector3 (3 # 4) (3 # 4) 0 ].
Definition seedsProduced : list Vector3 :=
  [ mkVector3 (1 # 4) (1 # 4) (1 # 4); mkVector3 (1 # 4) (3 # 4) (1 # 4);
    mkVector3 (3 # 4) (1 # 4) (1 # 4); mkVector3 (3 # 4) (3 # 4) (1 # 4) ].

(** [addParticles(min=(0,0,0), max=(1,1,0), size=0.5, mass=1)] on
    [new MPMSystem(cellSize)]. *)
Definition seeded (cellSize : Q) : MPMSystem.t :=
  MPMSystem.addParticles (MPMSystem.new cellSize)
                         (mkVector3 0 0 0) (mkVector3 1 1 0) (1 # 2) 1.

(** The invariant the [Grid] constructor asserts and establishes: a
    positive cell size, positive cell counts, one cell per index triple. *)
Definition gridInvariant (g : Grid.t) : Prop :=
  0 < Grid.cellSize g /\
  (0 < ix (Grid.size g))%Z /\ (0 < iy (Grid.size g))%Z /\
  (0 < iz (Grid.size g))%Z /\
  length (Grid.data g)
  = Z.to_nat (ix (Grid.size g) * iy (Grid.size g) * iz (Grid.size g)).

(** [v] lies in the box [origin, origin + cellDims * size] of grid [g]. *)
Definition insideGrid (g : Grid.t) (v : Vector3) : Prop :=
  let o := Grid.leftBottomBackPos g in
  let H := Grid.cellDimensions g in
  (x o <= x v /\ x v <= x o + x H * inject_Z (ix (Grid.size g))) /\
  (y o <= y v /\ y v <= y o + y H * inject_Z (iy (Grid.size g))) /\
  (z o <= z v /\ z v <= z o + z H * inject_Z (iz (Grid.size g))).

(** Two grids of one shape: same size, cell size, origin and cell count. *)
Definition sameShape (g g' : Grid.t) : Prop :=
  Grid.size g' = Grid.size g /\
  Grid.cellSize g' = Grid.cellSize g /\
  Grid.leftBottomBackPos g' = Grid.leftBottomBackPos g /\
  length (Grid.data g') = length (Grid.data g).

(** Particle [p'] is particle [p] with, at most, other [pos], [vel], [B]. *)
Definition sameParticle (p p' : Particle.t) : Prop :=
  Particle.mass p' = Particle.mass p /\
  Particle.active p' = Particle.active p.

(** What [_particleToGrid] leaves of a particle: [B] holds [B * Dinv]. *)
Definition p2gParticleAfter (Dinv : Matrix3) (p : Particle.t) : Particle.t :=
  Particle.mk (Particle.active p) (Particle.mass p) (Particle.pos p)
              (Particle.vel p) (mmultiply (Particle.B p) Dinv).

(** The index triple [(i, j, k)] names a cell of the lattice of [g]. *)
Definition inLattice (g : Grid.t) (i j k : Z) : Prop :=
  (0 <= i < ix (Grid.size g))%Z /\
  (0 <= j < iy (Grid.size g))%Z /\
  (0 <= k < iz (Grid.size g))%Z.

(** Index [i] lies in the two-cell boundary layer of an axis of [n] cells. *)
Definition inBoundaryLayer (n i : Z) : bool :=
  ((i <? 2) || (n - 2 <=? i))%Z.

(** A loop that fetches the cell at [flat idx] and stores [f idx cell]. *)
Definition updateAt (flat : IVector3 -> Z) (f : IVector3 -> Cell.t -> Cell.t)
           (d : list Cell.t) (idx : IVector3) : option (list Cell.t) :=
  cell ← Grid.dataAt d (flat idx);
  Some (<[Z.to_nat (flat idx) := f idx cell]> d).

(** What the grid update makes of the cell [c] found at [(i, j, k)]. *)
Definition cellUpdated (g : Grid.t) (dt : Q) (i j k : Z) (c c' : Cell.t)
  : Prop :=
  (Cell.mass c <= 0 ->
   Cell.mass c' = 0 /\ Cell.mv c' = ZeroVector3 /\
   Cell.vel c' = ZeroVector3 /\ Cell.force c' = ZeroVector3) /\
  (0 < Cell.mass c ->
   Cell.mass c' = Cell.mass c /\ Cell.mv c' = Cell.mv c /\
   Cell.force c' = Cell.force c /\
   x (Cell.vel c')
   == (if inBoundaryLayer (ix (Grid.size g)) i then 0
       else x (Cell.mv c) / Cell.mass c
            + dt * (x (Cell.force c) / Cell.mass c + 0)) /\
   y (Cell.vel c')
   == (if inBoundaryLayer (iy (Grid.size g)) j then 0
       else y (Cell.mv c) / Cell.mass c
            + dt * (y (Cell.force c) / Cell.mass c + - (98 # 10))) /\
   z (Cell.vel c')
   == (if negb (Grid.is2D g) && inBoundaryLayer (iz (Grid.size g)) k then 0
       else z (Cell.mv c) / Cell.mass c
            + dt * (z (Cell.force c) / Cell.mass c + 0))).

(** Grid [g'] is grid [g] after the grid update with time step [dt]. *)
Definition gridUpdated (g : Grid.t) (dt : Q) (g' : Grid.t) : Prop :=
  forall i j k,
    inLattice g i j k ->
    exists c c',
      Grid.getCell g (mkIVector3 i j k) = Some c /\
      Grid.getCell g' (mkIVector3 i j k) = Some c' /\
      cellUpdated g dt i j k c c'.

(** Every particle of [s] lies in the box of the grid of [s]. *)
Definition allInside (s : MPMSystem.t) : Prop :=
  Forall (fun p => insideGrid (MPMSystem.grid s) (Particle.pos p))
         (MPMSystem.particles s).

(** What a step leaves as it was: the shape of the grid and, particle by
    particle in the same order, [mass] and [active]. *)
Definition stepFrame (s s' : MPMSystem.t) : Prop :=
  sameShape (MPMSystem.grid s) (MPMSystem.grid s') /\
  Forall2 sameParticle (MPMSystem.particles s) (MPMSystem.particles s').

(** A unit-mass particle at the centre of cell [(0, 1, 0)] of the grid of
    [new MPMSystem(0.1)], in the leftmost column of the lattice. *)
Definition edgeParticle : Particle.t :=
  Particle.new true 1 (mkVector3 (- (63 # 20)) (- (61 # 20)) (1 # 20)).

(** The grid of [new MPMSystem(0.1)] with, in the rightmost cell of the
    bottom row [(63, 0, 0)] only, unit mass and unit velocity along [x]. *)
Definition farCellMoving : Grid.t :=
  let g := MPMSystem.grid (MPMSystem.new (1 # 10)) in
  Grid.withData g
    (<[63%nat := Cell.mk 1 (mkVector3 1 0 0) (mkVector3 1 0 0) ZeroVector3]>
       (Grid.data g)).

(** The mass [_particleToGrid] leaves in the cell at [idx]. *)
Definition p2gMassAt (g : Grid.t) (ps : list Particle.t) (idx : IVector3)
  : option Q :=
  st ← MPMSystem._particleToGrid g ps;
  c ← Grid.getCell st.1 idx;
  Some (Cell.mass c).

(** The velocities [_gridToParticle] gives the particles. *)
Definition g2pVelocities (g : Grid.t) (ps : list Particle.t) (dt : Q)
  : option (list Vector3) :=
  match MPMSystem._gridToParticle g ps dt with
  | Some ps' => Some (Particle.vel <$> ps')
  | None => None
  end.

(** The sum of the numbers of a list. *)
Definition sumQ (l : list Q) : Q := foldr Qplus 0 l.

(** The sum of [getWeight(pos, delta)] over the offsets of the neighbour
    loops: 9 on a 2D grid, 27 on a 3D grid. *)
Definition weightSum (g : Grid.t) (pos : Vector3) : Q :=
  sumQ (Grid.getWeight g pos <$> MPMSystem.neighbourDeltas (Grid.is2D g)).

(** Coordinate [p] is at least 1.5 cells from both ends of an axis of [n]
    cells of width [cs] that starts at [o]. *)
Definition awayFromEnds (o cs : Q) (n : Z) (p : Q) : Prop :=
  o + (3 # 2) * cs <= p /\ p <= o + inject_Z n * cs - (3 # 2) * cs.

(** [pos] is at least 1.5 cells from every boundary on every active axis. *)
Definition interior (g : Grid.t) (pos : Vector3) : Prop :=
  let o := Grid.leftBottomBackPos g in
  awayFromEnds (x o) (Grid.cellSize g) (ix (Grid.size g)) (x pos) /\
  awayFromEnds (y o) (Grid.cellSize g) (iy (Grid.size g)) (y pos) /\
  (Grid.is2D g = false ->
   awayFromEnds (z o) (Grid.cellSize g) (iz (Grid.size g)) (z pos)).

(** On a 2D grid, [pos] lies in the one layer of cells along [z]. *)
Definition inLayer (g : Grid.t) (pos : Vector3) : Prop :=
  Grid.is2D g = true ->
  z (Grid.leftBottomBackPos g) <= z pos /\
  z pos < z (Grid.leftBottomBackPos g) + 1.

(** The argument [getWeight] passes to the kernel on one axis: the
    position [p] relative to the centre of the cell [d] cells from the one
    that contains [p], in cells of width [h]. *)
Definition axisDistance (o cs h p : Q) (d : Z) : Q :=
  (p - ((inject_Z (Qfloor ((p - o) / h) + d) + (1 # 2)) * cs + o)) / h.

(** A 3D grid of 6 x 6 x 6 cells of width [1/2] with its corner at the
    origin. *)
Definition cube6 : Grid.t :=
  Grid.new (mkIVector3 6 6 6) (1 # 2) (mkVector3 0 0 0).

(** Particle [p'] of [s'] is what a step with [dt > 0] makes of particle
    [p] of [s]: the result of [_gridToParticle], on the grid of [s'], for
    [p] as [_particleToGrid] left it. *)
Definition steppedParticle (s s' : MPMSystem.t) (dt : Q) (p p' : Particle.t)
  : Prop :=
  MPMSystem.g2pParticle
    (MPMSystem.grid s') dt (Grid.getBounds (MPMSystem.grid s'))
    (p2gParticleAfter
       (invert (Grid.getDQuadratic (Grid.resetCells (MPMSystem.grid s)))) p)
  = Some p'.

(** ** Vocabulary of the further statements *)

(** The particles [addParticles] appends: one per triple of the lattice of
    counts [n], at [min + (i + 0.5) * size] on every axis. *)
Definition seedAt (min : Vector3) (size mass : Q) (i j k : Z) : Particle.t :=
  Particle.new true mass
    (mkVector3 (x min + inject_Z i * size + size / 2)
               (y min + inject_Z j * size + size / 2)
               (z min + inject_Z k * size + size / 2)).

(** The sum of the masses of the cells of a grid. *)
Definition totalMass (g : Grid.t) : Q := sumQ (Cell.mass <$> Grid.data g).

(** A cell as [step] leaves it: zero throughout, or with positive mass and
    no force. *)
Definition cellSettled (c : Cell.t) : Prop :=
  c = Cell.new \/ (0 < Cell.mass c /\ Cell.force c = ZeroVector3).

(** Every particle of the list is an interior position of grid [g]. *)
Definition allInterior (g : Grid.t) (ps : list Particle.t) : Prop :=
  Forall (fun p => interior g (Particle.pos p) /\ inLayer g (Particle.pos p))
         ps.

(** A view the zoom accepts: not inverted, and more than two units wide
    and high. *)
Definition validView (c : App.Camera) : Prop :=
  App.orthoLeft c < App.orthoRight c /\
  App.orthoBottom c < App.orthoTop c /\
  2 < App.orthoRight c - App.orthoLeft c /\
  2 < App.orthoTop c - App.orthoBottom c.

(** The view has the proportions of the canvas. *)
Definition viewMatchesAspect (a : App.t) : Prop :=
  App.orthoRight (App.camera a) - App.orthoLeft (App.camera a)
  == (App.orthoTop (App.camera a) - App.orthoBottom (App.camera a))
     * App.aspectRatio a.

(** Coordinate [p] is at least 3 cells above the lower end and more than
    3 cells below the upper end of an axis of [n] cells of width [cs] that
    starts at [o]: the three cells around [p] are outside the two-cell
    boundary layer. *)
Definition awayFromLayer (o cs : Q) (n : Z) (p : Q) : Prop :=
  o + 3 * cs <= p /\ p < o + inject_Z n * cs - 3 * cs.

(** [pos] is away from the boundary layer on every active axis and, on a
    2D grid, inside the one layer of cells along [z]. *)
Definition deepInside (g : Grid.t) (pos : Vector3) : Prop :=
  let o := Grid.leftBottomBackPos g in
  awayFromLayer (x o) (Grid.cellSize g) (ix (Grid.size g)) (x pos) /\
  awayFromLayer (y o) (Grid.cellSize g) (iy (Grid.size g)) (y pos) /\
  (Grid.is2D g = false ->
   awayFromLayer (z o) (Grid.cellSize g) (iz (Grid.size g)) (z pos)) /\
  inLayer g pos.

(** A particle as [addParticles] makes it: no velocity, no affine part. *)
Definition atRest (p : Particle.t) : Prop :=
  Particle.vel p = ZeroVector3 /\ Particle.B p = ZeroMatrix3.

(** A cell that carries no momentum, no force and no negative mass. *)
Definition cellAtRest (c : Cell.t) : Prop :=
  veq (Cell.mv c) ZeroVector3 /\ Cell.force c = ZeroVector3 /\
  0 <= Cell.mass c.

(** The masses of the cells of [d'] are, cell by cell, at least those of
    the cells of [d]. *)
Definition massesGrow (d d' : list Cell.t) : Prop :=
  length d' = length d /\
  forall n c, d !! n = Some c ->
              exists c', d' !! n = Some c' /\ Cell.mass c <= Cell.mass c'.

(** The cell that the neighbour [delta] of particle [p] names, when it
    names one, holds at least the mass [p] sends it. *)
Definition covers (g : Grid.t) (d : list Cell.t) (p : Particle.t)
           (delta : IVector3) : Prop :=
  let idx := iadd (Grid.cellPositionToIndex g (Particle.pos p)) delta in
  Grid.isValidCellIndex g (ix idx) (iy idx) (iz idx) = true ->
  exists c,
    Grid.dataAt d (Grid._toFlatIndex g (ix idx) (iy idx) (iz idx)) = Some c /\
    Grid.getWeight g (Particle.pos p) delta * Particle.mass p <= Cell.mass c.

(** ** Comparisons *)

Lemma Qlt_bool_iff (a b : Q) : Qlt_bool a b = true <-> a < b.
Proof.
  unfold Qlt_bool. rewrite negb_true_iff.
  destruct (Qle_bool b a) eqn:E.
  - apply Qle_bool_iff in E. split; [discriminate | intros H; lra].
  - split; [intros _ | reflexivity].
    destruct (Qlt_le_dec a b) as [H | H]; [exact H |].
    apply Qle_bool_iff in H. congruence.
Qed.

Lemma Qlt_bool_false_iff (a b : Q) : Qlt_bool a b = false <-> b <= a.
Proof.
  unfold Qlt_bool. rewrite negb_false_iff. apply Qle_bool_iff.
Qed.

Lemma Qle_bool_false_iff (a b : Q) : Qle_bool a b = false <-> b < a.
Proof.
  rewrite <- Qlt_bool_iff. unfold Qlt_bool.
  destruct (Qle_bool a b); simpl; split; congruence.
Qed.

Lemma Qabs_opp_eq (q : Q) : Qabs (- q) = Qabs q.
Proof.
  destruct q as [n d]. unfold Qabs, Qopp. simpl. now rewrite Z.abs_opp.
Qed.

(** ** The kernel *)

Lemma getNQuadratic_opp (q : Q) :
  Grid.getNQuadratic (- q) = Grid.getNQuadratic q.
Proof. unfold Grid.getNQuadratic. now rewrite Qabs_opp_eq. Qed.

Lemma getNQuadraticDerivative_opp (q : Q) :
  Grid.getNQuadraticDerivative (- q) = Grid.getNQuadraticDerivative q.
Proof. unfold Grid.getNQuadraticDerivative. now rewrite Qabs_opp_eq. Qed.

(** After [x = Math.abs(x)] the test [x > 0] of the middle piece always
    succeeds: the derivative is a function of [|x|] alone. *)
Lemma getNQuadraticDerivative_pieces (q : Q) :
  Grid.getNQuadraticDerivative q
  = if Qlt_bool (Qabs q) (1 # 2) then - (2) * Qabs q
    else if Qlt_bool (Qabs q) (3 # 2) then Qabs q - (3 # 2)
    else 0.
Proof.
  unfold Grid.getNQuadraticDerivative.
  destruct (Qlt_bool (Qabs q) (1 # 2)) eqn:E1; [reflexivity |].
  destruct (Qlt_bool (Qabs q) (3 # 2)); [| reflexivity].
  apply Qlt_bool_false_iff in E1.
  assert (H : Qlt_bool 0 (Qabs q) = true) by (apply Qlt_bool_iff; lra).
  now rewrite H.
Qed.

Example getNQuadratic_values :
  Grid.getNQuadratic 0 == 3 # 4 /\
  Grid.getNQuadratic (1 # 2) == 1 # 2 /\
  Grid.getNQuadratic (- (1)) == 1 # 8 /\
  Grid.getNQuadratic (3 # 2) == 0 /\
  Grid.getNQuadratic 2 == 0.
Proof. repeat split. Qed.

(** C2.  [getNQuadratic] is even.  [getNQuadraticDerivative] takes the
    absolute value of its argument first, so it is even as well, and not
    odd: at [x = -1/4] it returns [-1/2], the same as at [1/4], where the
    derivative of the kernel is [1/2]; at [x = -1] it returns [-1/2] where
    [sign(x) * (|x| - 1.5)] is [1/2]. *)
Theorem getNQuadratic_even_but_derivative_not_odd :
  (forall q, Grid.getNQuadratic q == Grid.getNQuadratic (- q)) /\
  (forall q, Grid.getNQuadraticDerivative q
             == Grid.getNQuadraticDerivative (- q)) /\
  Grid.getNQuadraticDerivative (- (1 # 4)) == - (1 # 2) /\
  Grid.getNQuadraticDerivative (1 # 4) == - (1 # 2) /\
  ~ Grid.getNQuadraticDerivative (- (1 # 4))
    == - Grid.getNQuadraticDerivative (- - (1 # 4)) /\
  Grid.getNQuadraticDerivative (- (1)) == - (1 # 2) /\
  Grid.getNQuadraticDerivative 1 == - (1 # 2) /\
  ~ Grid.getNQuadraticDerivative (- (1))
    == - Grid.getNQuadraticDerivative (- - (1)).
Proof.
  split; [| split; [| split; [| split; [| split; [| split; [| split]]]]]].
  - intros q. now rewrite getNQuadratic_opp.
  - intros q. now rewrite getNQuadraticDerivative_opp.
  - vm_compute. reflexivity.
  - vm_compute. reflexivity.
  - vm_compute. discriminate.
  - vm_compute. reflexivity.
  - vm_compute. reflexivity.
  - vm_compute. discriminate.
Qed.

(** ** The inertia matrix *)

(** C3, as the code has it.  [getDQuadratic] is diagonal; its [x] and [y]
    entries are [cellSize^2 / 4]; its [z] entry is [cellSize^2 / 4] on a 3D
    grid and [1/4] (the square of the unit [z] cell dimension over four) on
    a 2D grid. *)
Theorem getDQuadratic_diagonal (g : Grid.t) :
  let D := Grid.getDQuadratic g in
  e0 D == Grid.cellSize g * Grid.cellSize g / 4 /\
  e4 D == Grid.cellSize g * Grid.cellSize g / 4 /\
  e8 D == (if Grid.is2D g then 1 # 4
           else Grid.cellSize g * Grid.cellSize g / 4) /\
  e1 D == 0 /\ e2 D == 0 /\ e3 D == 0 /\
  e5 D == 0 /\ e6 D == 0 /\ e7 D == 0.
Proof.
  unfold Grid.getDQuadratic, Grid.getH, Grid.cellDimensions. simpl.
  destruct (Grid.is2D g); repeat split; try reflexivity; field.
Qed.

(** C3, as stated, fails: on the 2D grid of [new MPMSystem(0.1)] the [z]
    entry of [getDQuadratic] is [1/4], not [0]. *)
Lemma getDQuadratic_2D_z_entry_nonzero :
  let g := MPMSystem.grid (MPMSystem.new (1 # 10)) in
  Grid.is2D g = true /\
  e8 (Grid.getDQuadratic g) == 1 # 4 /\
  ~ e8 (Grid.getDQuadratic g) == 0.
Proof.
  repeat split; vm_compute; discriminate.
Qed.

(** ** Index to position *)

(** C4.  [cellIndexToPosition] scales every axis, [z] included, by
    [cellSize]: on the 2D grid of [new MPMSystem(0.1)], whose [z] cell
    dimension is [1], cell [(0, 0, 0)] is given [z = 0.05], and
    [origin.z + (0 + 0.5) * 1] is [0.5]. *)
Theorem cellIndexToPosition_scales_by_cellSize :
  (forall g i j k,
      veq (Grid.cellIndexToPosition g i j k)
          (let o := Grid.leftBottomBackPos g in
           mkVector3 (x o + (inject_Z i + (1 # 2)) * Grid.cellSize g)
                     (y o + (inject_Z j + (1 # 2)) * Grid.cellSize g)
                     (z o + (inject_Z k + (1 # 2)) * Grid.cellSize g))) /\
  (let g := MPMSystem.grid (MPMSystem.new (1 # 10)) in
   Grid.is2D g = true /\
   z (Grid.cellDimensions g) == 1 /\
   z (Grid.cellIndexToPosition g 0 0 0) == 1 # 20 /\
   ~ z (Grid.cellIndexToPosition g 0 0 0)
     == z (Grid.leftBottomBackPos g)
        + (inject_Z 0 + (1 # 2)) * z (Grid.cellDimensions g)).
Proof.
  split.
  - intros g i j k. unfold veq, Grid.cellIndexToPosition. simpl.
    repeat split; ring.
  - repeat split; vm_compute; discriminate.
Qed.

(** ** Seeding *)

(** C1, as the code has it.  The call yields exactly four particles, at
    [(0.25,0.25,0.25)], [(0.25,0.75,0.25)], [(0.75,0.25,0.25)] and
    [(0.75,0.75,0.25)] in this order, each with mass 1 and [active = true]. *)
Theorem addParticles_unit_square (cellSize : Q) :
  let ps := MPMSystem.particles (seeded cellSize) in
  length ps = 4%nat /\
  Forall2 (fun p v => veq (Particle.pos p) v) ps seedsProduced /\
  Forall (fun p => Particle.mass p == 1 /\ Particle.active p = true) ps.
Proof.
  simpl. split; [reflexivity |]. split.
  - repeat constructor.
  - repeat constructor.
Qed.

(** C1, as stated, fails: the particles are not on the plane [z = 0]. *)
Lemma addParticles_unit_square_not_at_z0 :
  ~ Forall2 (fun p v => veq (Particle.pos p) v)
            (MPMSystem.particles (seeded (1 # 10))) seedsClaimed.
Proof.
  intros H. apply Forall2_cons_1 in H as [(_ & _ & Hz) _].
  vm_compute in Hz. discriminate.
Qed.

(** ** Stepping by a non-positive time *)

Lemma step_returns_early (s : MPMSystem.t) (dt : Q) :
  dt <= 0 -> MPMSystem.step s dt = Some s.
Proof.
  intros H. unfold MPMSystem.step.
  now apply Qle_bool_iff in H as ->.
Qed.

(** C7.  For [dt <= 0], [step(dt)] returns at once: the whole state, every
    field of every particle and of every cell, is the one before. *)
Theorem step_nonpositive_dt (s : MPMSystem.t) (dt : Q) :
  dt <= 0 ->
  MPMSystem.step s dt = Some s /\
  forall s', MPMSystem.step s dt = Some s' ->
             MPMSystem.particles s' = MPMSystem.particles s /\
             Grid.data (MPMSystem.grid s') = Grid.data (MPMSystem.grid s).
Proof.
  intros H. rewrite (step_returns_early s dt H).
  split; [reflexivity |]. now intros s' [= <-].
Qed.

(** ** Loops *)

Lemma forEach_invariant {A S : Type} (P : S -> Prop)
      (body : S -> A -> option S) (l : list A) :
  (forall s a s', P s -> body s a = Some s' -> P s') ->
  forall s s', P s -> forEach body l s = Some s' -> P s'.
Proof.
  intros Hbody. induction l as [| a l IH]; simpl; intros s s' Hs H.
  - now inversion H; subst.
  - destruct (body s a) as [s1 |] eqn:E; [| discriminate]. eauto.
Qed.

Lemma forEach_total {A S : Type} (P : S -> Prop)
      (body : S -> A -> option S) (l : list A) :
  (forall s a, a ∈ l -> P s -> exists s', body s a = Some s' /\ P s') ->
  forall s, P s -> exists s', forEach body l s = Some s' /\ P s'.
Proof.
  induction l as [| a l IH]; simpl; intros Hbody s Hs.
  - eauto.
  - destruct (Hbody s a) as (s1 & -> & Hs1); [left | exact Hs |].
    apply IH; [| exact Hs1].
    intros s2 b Hb. apply Hbody. now right.
Qed.

(** ** Cell access *)

Lemma isValidCellIndex_spec (g : Grid.t) (i j k : Z) :
  Grid.isValidCellIndex g i j k = true <->
  (0 <= Grid._toFlatIndex g i j k < Z.of_nat (length (Grid.data g)))%Z.
Proof.
  unfold Grid.isValidCellIndex. rewrite andb_true_iff. lia.
Qed.

Lemma dataAt_in_range (d : list Cell.t) (f : Z) :
  (0 <= f < Z.of_nat (length d))%Z -> exists c, Grid.dataAt d f = Some c.
Proof.
  intros H. unfold Grid.dataAt.
  destruct (Z.ltb_spec f 0); [lia |].
  apply lookup_lt_is_Some. lia.
Qed.

Lemma getCell_valid (g : Grid.t) (idx : IVector3) :
  Grid.isValidCellIndex g (ix idx) (iy idx) (iz idx) = true ->
  exists c, Grid.getCell g idx = Some c.
Proof.
  intros H. apply isValidCellIndex_spec in H. now apply dataAt_in_range.
Qed.

(** ** Particle to grid *)

Lemma p2gCell_length g p gridIdx apic d delta d' :
  MPMSystem.p2gCell g p gridIdx apic d delta = Some d' ->
  length d' = length d.
Proof.
  unfold MPMSystem.p2gCell.
  destruct (negb _); [now intros [= <-] |].
  destruct (Grid.getCell _ _); simpl; [| discriminate].
  intros [= <-]. apply length_insert.
Qed.

Lemma p2gCell_total g p gridIdx apic d delta :
  exists d', MPMSystem.p2gCell g p gridIdx apic d delta = Some d'.
Proof.
  unfold MPMSystem.p2gCell.
  destruct (Grid.isValidCellIndex _ _ _ _) eqn:E; simpl; [| eauto].
  destruct (getCell_valid _ _ E) as [c ->]. simpl. eauto.
Qed.

Lemma p2gLoop_spec g Dinv ps :
  forall d acc,
  exists d',
    forEach (MPMSystem.p2gParticle g Dinv) ps (d, acc)
    = Some (d', acc ++ (p2gParticleAfter Dinv <$> ps)) /\
    length d' = length d.
Proof.
  induction ps as [| p ps IH]; simpl; intros d acc.
  - exists d. now rewrite app_nil_r.
  - unfold MPMSystem.p2gParticle at 1. simpl.
    destruct (forEach_total (fun d1 => length d1 = length d)
                (MPMSystem.p2gCell g (p2gParticleAfter Dinv p)
                   (Grid.cellPositionToIndex g (Particle.pos p))
                   (mmultiply (Particle.B p) Dinv))
                (MPMSystem.neighbourDeltas (Grid.is2D g))) with (s := d)
      as (d1 & E & Hlen); [| reflexivity |].
    + intros d2 delta _ Hd2.
      destruct (p2gCell_total g (p2gParticleAfter Dinv p)
                  (Grid.cellPositionToIndex g (Particle.pos p))
                  (mmultiply (Particle.B p) Dinv) d2 delta) as [d3 E3].
      exists d3. split; [exact E3 |].
      apply p2gCell_length in E3. congruence.
    + unfold p2gParticleAfter in E. rewrite E. simpl.
      destruct (IH d1 (acc ++ [p2gParticleAfter Dinv p])) as (d' & E' & Hlen').
      exists d'. rewrite <- app_assoc in E'. simpl in E'.
      split; [exact E' | congruence].
Qed.

Lemma particleToGrid_spec g ps :
  exists g',
    MPMSystem._particleToGrid g ps
    = Some (g', p2gParticleAfter (invert (Grid.getDQuadratic g)) <$> ps) /\
    sameShape g g'.
Proof.
  unfold MPMSystem._particleToGrid.
  destruct (p2gLoop_spec g (invert (Grid.getDQuadratic g)) ps (Grid.data g) [])
    as (d' & -> & Hlen).
  simpl. eexists; split; [reflexivity |].
  repeat split. exact Hlen.
Qed.

(** ** The flat index *)

Lemma toFlatIndex_range (g : Grid.t) (i j k : Z) :
  inLattice g i j k ->
  (0 <= Grid._toFlatIndex g i j k
   < ix (Grid.size g) * iy (Grid.size g) * iz (Grid.size g))%Z.
Proof.
  unfold inLattice, Grid._toFlatIndex.
  set (sx := ix (Grid.size g)). set (sy := iy (Grid.size g)).
  set (sz := iz (Grid.size g)). intros (Hi & Hj & Hk).
  assert (0 <= j * sx <= (sy - 1) * sx)%Z by nia.
  assert (0 <= k * sx * sy <= (sz - 1) * sx * sy)%Z by nia.
  nia.
Qed.

Lemma toFlatIndex_inj (g : Grid.t) (i j k i' j' k' : Z) :
  inLattice g i j k -> inLattice g i' j' k' ->
  Grid._toFlatIndex g i j k = Grid._toFlatIndex g i' j' k' ->
  i = i' /\ j = j' /\ k = k'.
Proof.
  unfold inLattice, Grid._toFlatIndex.
  set (sx := ix (Grid.size g)). set (sy := iy (Grid.size g)).
  intros (Hi & Hj & Hk) (Hi' & Hj' & Hk') E.
  destruct (Z.div_mod_unique sx (j + k * sy) (j' + k' * sy) i i') as [E1 E2];
    [lia | lia | lia |].
  destruct (Z.div_mod_unique sy k k' j j') as [E3 E4]; [lia | lia | lia |].
  auto.
Qed.

Lemma dataAt_insert_eq (d : list Cell.t) (f : Z) (c : Cell.t) :
  (0 <= f < Z.of_nat (length d))%Z ->
  Grid.dataAt (<[Z.to_nat f := c]> d) f = Some c.
Proof.
  intros H. unfold Grid.dataAt. destruct (Z.ltb_spec f 0); [lia |].
  apply list_lookup_insert_eq. lia.
Qed.

Lemma dataAt_insert_ne (d : list Cell.t) (f k : Z) (c : Cell.t) :
  (0 <= f)%Z -> f <> k ->
  Grid.dataAt (<[Z.to_nat f := c]> d) k = Grid.dataAt d k.
Proof.
  intros H Hne. unfold Grid.dataAt. destruct (Z.ltb_spec k 0); [reflexivity |].
  apply list_lookup_insert_ne. lia.
Qed.

(** ** Loops that update one cell per index *)

Section UpdateLoop.

Variable flat : IVector3 -> Z.
Variable f : IVector3 -> Cell.t -> Cell.t.

Lemma updateAt_loop (idxs : list IVector3) :
  NoDup (flat <$> idxs) ->
  forall d : list Cell.t,
    (forall idx, idx ∈ idxs -> (0 <= flat idx < Z.of_nat (length d))%Z) ->
    exists d',
      forEach (updateAt flat f) idxs d = Some d' /\
      length d' = length d /\
      (forall idx,
          idx ∈ idxs ->
          Grid.dataAt d' (flat idx) = f idx <$> Grid.dataAt d (flat idx)) /\
      (forall k, k ∉ flat <$> idxs -> Grid.dataAt d' k = Grid.dataAt d k).
Proof.
  induction idxs as [| a l IH]; intros Hnd d Hrange.
  - exists d. split; [reflexivity |]. split; [reflexivity |].
    split; [| reflexivity]. intros idx Hin. inversion Hin.
  - rewrite fmap_cons in Hnd. apply NoDup_cons in Hnd as [Ha Hnd].
    destruct (dataAt_in_range d (flat a)) as [c Ec];
      [apply Hrange; left |].
    simpl. unfold updateAt at 1. rewrite Ec. simpl.
    set (d1 := <[Z.to_nat (flat a) := f a c]> d).
    assert (Hlen1 : length d1 = length d) by apply length_insert.
    destruct (IH Hnd d1) as (d' & E & Hlen & Hin & Hout).
    { intros idx Hidx. rewrite Hlen1. apply Hrange. now right. }
    exists d'. split; [exact E |]. split; [congruence |]. split.
    + intros idx Hidx. apply elem_of_cons in Hidx as [-> | Hidx].
      * rewrite (Hout _ Ha), Ec. simpl. apply dataAt_insert_eq.
        apply Hrange. left.
      * rewrite (Hin _ Hidx). f_equal. apply dataAt_insert_ne.
        -- apply (Hrange a). left.
        -- intros Heq. apply Ha. rewrite Heq.
           apply list_elem_of_fmap. eauto.
    + intros k Hk.
      apply not_elem_of_cons in Hk as [Hne Hk].
      rewrite (Hout _ Hk). apply dataAt_insert_ne; [| congruence].
      apply (Hrange a). left.
Qed.

End UpdateLoop.

(** ** The cells [_updateGrid] visits *)

Lemma elem_of_cellIndices (size : IVector3) (idx : IVector3) :
  idx ∈ MPMSystem.cellIndices size <->
  (0 <= ix idx < ix size)%Z /\ (0 <= iy idx < iy size)%Z /\
  (0 <= iz idx < iz size)%Z.
Proof.
  unfold MPMSystem.cellIndices, upTo. rewrite list_elem_of_bind. split.
  - intros (i & Hi & Hx). apply list_elem_of_bind in Hi as (j & Hj & Hy).
    apply list_elem_of_bind in Hj as (k & Hk & Hz).
    apply list_elem_of_singleton in Hk as ->. simpl.
    apply elem_of_seqZ in Hx, Hy, Hz. lia.
  - intros (Hx & Hy & Hz). destruct idx as [i j k]. simpl in *.
    exists i. split; [| apply elem_of_seqZ; lia].
    apply list_elem_of_bind. exists j. split; [| apply elem_of_seqZ; lia].
    apply list_elem_of_bind. exists k. split; [| apply elem_of_seqZ; lia].
    apply list_elem_of_singleton. reflexivity.
Qed.

Lemma NoDup_cellIndices (size : IVector3) : NoDup (MPMSystem.cellIndices size).
Proof.
  unfold MPMSystem.cellIndices, upTo.
  apply NoDup_bind; [| | apply NoDup_seqZ].
  - intros i i' idx _ _ H H'.
    apply list_elem_of_bind in H as (j & H & _).
    apply list_elem_of_bind in H as (k & H & _).
    apply list_elem_of_bind in H' as (j' & H' & _).
    apply list_elem_of_bind in H' as (k' & H' & _).
    apply list_elem_of_singleton in H, H'. congruence.
  - intros i _. apply NoDup_bind; [| | apply NoDup_seqZ].
    + intros j j' idx _ _ H H'.
      apply list_elem_of_bind in H as (k & H & _).
      apply list_elem_of_bind in H' as (k' & H' & _).
      apply list_elem_of_singleton in H, H'. congruence.
    + intros j _. apply NoDup_bind; [| | apply NoDup_seqZ].
      * intros k k' idx _ _ H H'.
        apply list_elem_of_singleton in H, H'. congruence.
      * intros k _. apply NoDup_singleton.
Qed.

Lemma NoDup_flat_cellIndices (g : Grid.t) :
  NoDup ((fun idx => Grid._toFlatIndex g (ix idx) (iy idx) (iz idx))
           <$> MPMSystem.cellIndices (Grid.size g)).
Proof.
  apply NoDup_fmap_2_strong; [| apply NoDup_cellIndices].
  intros [i j k] [i' j' k'] H H' E. simpl in E.
  apply elem_of_cellIndices in H, H'. simpl in H, H'.
  destruct (toFlatIndex_inj g i j k i' j' k') as (-> & -> & ->);
    [exact H | exact H' | exact E | reflexivity].
Qed.

Lemma updateGrid_spec (g : Grid.t) (dt : Q) :
  length (Grid.data g)
  = Z.to_nat (ix (Grid.size g) * iy (Grid.size g) * iz (Grid.size g)) ->
  exists g',
    MPMSystem._updateGrid g dt = Some g' /\
    sameShape g g' /\
    forall i j k,
      inLattice g i j k ->
      Grid.getCell g' (mkIVector3 i j k)
      = MPMSystem.updateCell (Grid.size g) (Grid.is2D g) dt (mkIVector3 i j k)
          <$> Grid.getCell g (mkIVector3 i j k).
Proof.
  intros Hlen. unfold MPMSystem._updateGrid.
  destruct (updateAt_loop
              (fun idx => Grid._toFlatIndex g (ix idx) (iy idx) (iz idx))
              (MPMSystem.updateCell (Grid.size g) (Grid.is2D g) dt)
              (MPMSystem.cellIndices (Grid.size g))
              (NoDup_flat_cellIndices g) (Grid.data g))
    as (d' & E & Hlen' & Hin & _).
  { intros [i j k] H. apply elem_of_cellIndices in H.
    pose proof (toFlatIndex_range g i j k H) as Hr. simpl. lia. }
  change (MPMSystem.updateGridCell g dt)
    with (updateAt (fun idx => Grid._toFlatIndex g (ix idx) (iy idx) (iz idx))
                   (MPMSystem.updateCell (Grid.size g) (Grid.is2D g) dt)).
  rewrite E. simpl. eexists; split; [reflexivity |]. split.
  - repeat split. exact Hlen'.
  - intros i j k H. apply (Hin (mkIVector3 i j k)).
    now apply elem_of_cellIndices.
Qed.

(** ** The grid update *)

Lemma updateCell_spec (g : Grid.t) (dt : Q) (i j k : Z) (c : Cell.t) :
  cellUpdated g dt i j k c
    (MPMSystem.updateCell (Grid.size g) (Grid.is2D g) dt (mkIVector3 i j k) c).
Proof.
  unfold cellUpdated, MPMSystem.updateCell, inBoundaryLayer. simpl.
  destruct (Qle_bool (Cell.mass c) 0) eqn:E.
  - apply Qle_bool_iff in E.
    split; [intros _; now repeat split | intros H; lra].
  - apply Qle_bool_false_iff in E. split; [intros H; lra | intros _].
    assert (Hm : ~ Cell.mass c == 0) by lra.
    destruct ((i <? 2)%Z || (ix (Grid.size g) - 2 <=? i)%Z),
             ((j <? 2)%Z || (iy (Grid.size g) - 2 <=? j)%Z),
             (negb (Grid.is2D g)
              && ((k <? 2)%Z || (iz (Grid.size g) - 2 <=? k)%Z));
      simpl; (split; [reflexivity |]); (split; [reflexivity |]);
      (split; [reflexivity |]);
      (split; [| split]); try reflexivity; field; exact Hm.
Qed.

Lemma updateGrid_gridUpdated (g : Grid.t) (dt : Q) :
  gridInvariant g ->
  exists g', MPMSystem._updateGrid g dt = Some g' /\ gridUpdated g dt g'.
Proof.
  intros (_ & _ & _ & _ & Hlen).
  destruct (updateGrid_spec g dt Hlen) as (g' & E & _ & Hcells).
  exists g'. split; [exact E |].
  intros i j k Hin.
  destruct (dataAt_in_range (Grid.data g) (Grid._toFlatIndex g i j k))
    as [c Ec].
  { pose proof (toFlatIndex_range g i j k Hin). lia. }
  exists c, (MPMSystem.updateCell (Grid.size g) (Grid.is2D g) dt
                                  (mkIVector3 i j k) c).
  split; [exact Ec |]. split.
  - rewrite (Hcells i j k Hin). unfold Grid.getCell. simpl. now rewrite Ec.
  - apply updateCell_spec.
Qed.

(** ** Grid to particle *)

Lemma g2pCell_frame g gridIdx p delta p' :
  MPMSystem.g2pCell g gridIdx p delta = Some p' ->
  Particle.mass p' = Particle.mass p /\
  Particle.active p' = Particle.active p /\
  Particle.pos p' = Particle.pos p.
Proof.
  unfold MPMSystem.g2pCell.
  destruct (negb _); [now intros [= <-] |].
  destruct (Grid.getCell _ _); simpl; [| discriminate].
  now intros [= <-].
Qed.

Lemma g2pCell_total g gridIdx p delta :
  exists p', MPMSystem.g2pCell g gridIdx p delta = Some p'.
Proof.
  unfold MPMSystem.g2pCell.
  destruct (Grid.isValidCellIndex _ _ _ _) eqn:E; simpl; [| eauto].
  destruct (getCell_valid _ _ E) as [c ->]. simpl. eauto.
Qed.

Lemma g2pParticle_total g dt b p :
  exists p', MPMSystem.g2pParticle g dt b p = Some p'.
Proof.
  unfold MPMSystem.g2pParticle.
  edestruct (forEach_total (fun _ : Particle.t => True)
               (MPMSystem.g2pCell g
                  (Grid.cellPositionToIndex g (Particle.pos p)))
               (MPMSystem.neighbourDeltas (Grid.is2D g))) as (p1 & E & _);
    [| exact I |].
  - intros p2 delta _ _.
    destruct (g2pCell_total g (Grid.cellPositionToIndex g (Particle.pos p))
                p2 delta) as [p3 E3]. eauto.
  - simpl. rewrite E. simpl. eauto.
Qed.

Lemma g2pParticle_spec g dt b p p' :
  MPMSystem.g2pParticle g dt b p = Some p' ->
  sameParticle p p' /\
  exists q, Particle.pos p' = min (max q (bmin b)) (bmax b).
Proof.
  unfold MPMSystem.g2pParticle.
  destruct (forEach _ _ _) as [p1 |] eqn:E; simpl; [| discriminate].
  intros [= <-]. simpl.
  apply (forEach_invariant
           (fun q => Particle.mass q = Particle.mass p /\
                     Particle.active q = Particle.active p)) in E.
  - split; [exact E | eauto].
  - intros q delta q' [Hm Ha] Hq.
    apply g2pCell_frame in Hq as (Hm' & Ha' & _). split; congruence.
  - now split.
Qed.

Lemma g2pLoop_spec g dt b ps :
  forall acc,
  exists ps',
    forEach (fun done p =>
               p' ← MPMSystem.g2pParticle g dt b p; Some (done ++ [p']))
            ps acc
    = Some (acc ++ ps') /\
    Forall2 (fun p p' => MPMSystem.g2pParticle g dt b p = Some p') ps ps'.
Proof.
  induction ps as [| p ps IH]; simpl; intros acc.
  - exists []. now rewrite app_nil_r.
  - destruct (g2pParticle_total g dt b p) as [p' E]. rewrite E. simpl.
    destruct (IH (acc ++ [p'])) as (ps' & E' & HF).
    exists (p' :: ps'). rewrite <- app_assoc in E'. simpl in E'.
    split; [exact E' | now constructor].
Qed.

(** ** One step *)

Lemma resetCells_sameShape g : sameShape g (Grid.resetCells g).
Proof. repeat split. simpl. apply length_fmap. Qed.

Lemma sameShape_trans g1 g2 g3 :
  sameShape g1 g2 -> sameShape g2 g3 -> sameShape g1 g3.
Proof. unfold sameShape. intuition congruence. Qed.

Lemma updateGrid_sameShape g dt g' :
  MPMSystem._updateGrid g dt = Some g' -> sameShape g g'.
Proof.
  unfold MPMSystem._updateGrid.
  destruct (forEach _ _ _) as [d |] eqn:E; simpl; [| discriminate].
  intros [= <-]. repeat split. simpl.
  apply (forEach_invariant (fun d1 => length d1 = length (Grid.data g))) in E;
    [exact E | | reflexivity].
  intros d1 idx d2 Hlen. unfold MPMSystem.updateGridCell.
  destruct (Grid.getCell _ _); simpl; [| discriminate].
  intros [= <-]. now rewrite length_insert.
Qed.

(** A step with [dt > 0] maps the particles one by one, in order. *)
Lemma step_positive_pointwise (s : MPMSystem.t) (dt : Q) (s' : MPMSystem.t) :
  0 < dt ->
  MPMSystem.step s dt = Some s' ->
  sameShape (MPMSystem.grid s) (MPMSystem.grid s') /\
  Forall2 (steppedParticle s s' dt)
          (MPMSystem.particles s) (MPMSystem.particles s').
Proof.
  intros Hdt. unfold MPMSystem.step.
  apply Qle_bool_false_iff in Hdt. rewrite Hdt.
  destruct (particleToGrid_spec (Grid.resetCells (MPMSystem.grid s))
                                (MPMSystem.particles s)) as (g1 & -> & Hs1).
  simpl.
  destruct (MPMSystem._updateGrid g1 dt) as [g2 |] eqn:E2; simpl;
    [| discriminate].
  apply updateGrid_sameShape in E2.
  unfold MPMSystem._gridToParticle.
  destruct (g2pLoop_spec g2 dt (Grid.getBounds g2)
              (p2gParticleAfter
                 (invert (Grid.getDQuadratic
                            (Grid.resetCells (MPMSystem.grid s))))
                 <$> MPMSystem.particles s) []) as (ps' & -> & HF).
  simpl. intros [= <-]. simpl. split.
  - eapply sameShape_trans; [apply resetCells_sameShape |].
    eapply sameShape_trans; eassumption.
  - apply Forall2_fmap_l in HF. exact HF.
Qed.

(** After a step with [dt > 0] every particle has the mass it had and a
    position clamped to the bounds of the grid. *)
Lemma step_positive_inv (s : MPMSystem.t) (dt : Q) (s' : MPMSystem.t) :
  0 < dt ->
  MPMSystem.step s dt = Some s' ->
  sameShape (MPMSystem.grid s) (MPMSystem.grid s') /\
  Forall2 (fun p p' =>
             sameParticle p p' /\
             exists q, Particle.pos p'
                       = min (max q (Grid.leftBottomBackPos (MPMSystem.grid s)))
                             (add (Grid.gridDimensions (MPMSystem.grid s))
                                  (Grid.leftBottomBackPos (MPMSystem.grid s))))
          (MPMSystem.particles s) (MPMSystem.particles s').
Proof.
  intros Hdt E.
  destruct (step_positive_pointwise s dt s' Hdt E) as [Hshape HF].
  split; [exact Hshape |].
  eapply Forall2_impl; [exact HF |].
  intros p p' Hp. apply g2pParticle_spec in Hp as [[Hm Ha] [q Hq]].
  split; [split; [exact Hm | exact Ha] |].
  exists q. rewrite Hq. unfold Grid.getBounds, Grid.gridDimensions,
                        Grid.cellDimensions, Grid.is2D. simpl.
  destruct Hshape as (-> & -> & -> & _). reflexivity.
Qed.

Lemma step_positive_total (s : MPMSystem.t) (dt : Q) :
  length (Grid.data (MPMSystem.grid s))
  = Z.to_nat (ix (Grid.size (MPMSystem.grid s))
              * iy (Grid.size (MPMSystem.grid s))
              * iz (Grid.size (MPMSystem.grid s))) ->
  exists s', MPMSystem.step s dt = Some s'.
Proof.
  intros Hlen. unfold MPMSystem.step.
  destruct (Qle_bool dt 0); [eauto |].
  destruct (particleToGrid_spec (Grid.resetCells (MPMSystem.grid s))
                                (MPMSystem.particles s)) as (g1 & -> & Hs1).
  simpl.
  destruct (updateGrid_spec g1 dt) as (g2 & -> & _).
  { destruct Hs1 as (-> & _ & _ & ->). simpl. now rewrite length_fmap. }
  simpl. unfold MPMSystem._gridToParticle.
  destruct (g2pLoop_spec g2 dt (Grid.getBounds g2)
              (p2gParticleAfter
                 (invert (Grid.getDQuadratic
                            (Grid.resetCells (MPMSystem.grid s))))
                 <$> MPMSystem.particles s) []) as (ps' & -> & _).
  simpl. eauto.
Qed.

(** ** The frame of a step *)

Lemma sameShape_refl g : sameShape g g.
Proof. now repeat split. Qed.

Lemma sameParticle_refl ps : Forall2 sameParticle ps ps.
Proof. induction ps; constructor; [now split | assumption]. Qed.

Lemma step_inv_frame (s : MPMSystem.t) (dt : Q) (s' : MPMSystem.t) :
  MPMSystem.step s dt = Some s' -> stepFrame s s'.
Proof.
  intros E. destruct (Qlt_le_dec 0 dt) as [Hdt | Hdt].
  - destruct (step_positive_inv s dt s' Hdt E) as [Hs HF].
    split; [exact Hs |].
    eapply Forall2_impl; [exact HF |]. now intros p p' [Hp _].
  - rewrite (step_returns_early s dt Hdt) in E. injection E as <-.
    split; [apply sameShape_refl | apply sameParticle_refl].
Qed.

(** C10.  For every [dt], a step that returns leaves the grid's size, cell
    size, origin and number of cells as they were, and leaves the particles
    as many as they were and, position by position in the list, with the
    [mass] (and [active]) they had; for [dt > 0] the particle at each
    position of the list is computed from the particle that was at that
    position.  On a grid that satisfies the constructor's invariant the
    step does return. *)
Theorem step_frame (s : MPMSystem.t) (dt : Q) :
  (forall s', MPMSystem.step s dt = Some s' ->
              stepFrame s s' /\
              length (MPMSystem.particles s')
              = length (MPMSystem.particles s) /\
              (Particle.mass <$> MPMSystem.particles s')
              = (Particle.mass <$> MPMSystem.particles s) /\
              (0 < dt ->
               Forall2 (steppedParticle s s' dt)
                       (MPMSystem.particles s) (MPMSystem.particles s'))) /\
  (gridInvariant (MPMSystem.grid s) ->
   exists s', MPMSystem.step s dt = Some s').
Proof.
  split.
  - intros s' E. pose proof (step_inv_frame s dt s' E) as HF.
    split; [exact HF |]. destruct HF as [_ HF]. split; [| split].
    + symmetry. eapply Forall2_length. exact HF.
    + induction HF as [| p p' ps ps' [Hm _] _ IH]; [reflexivity |].
      rewrite !fmap_cons. now rewrite Hm, IH.
    + intros Hdt. now apply step_positive_pointwise.
  - intros (_ & _ & _ & _ & Hlen). now apply step_positive_total.
Qed.

(** ** Containment *)

Lemma gridInvariant_sameShape g g' :
  sameShape g g' -> gridInvariant g -> gridInvariant g'.
Proof.
  unfold gridInvariant. intros (Hs & Hc & Ho & Hlen). rewrite Hs, Hc, Hlen.
  tauto.
Qed.


Lemma insideGrid_sameShape g g' v :
  sameShape g g' -> insideGrid g v -> insideGrid g' v.
Proof.
  unfold insideGrid, Grid.cellDimensions, Grid.is2D.
  intros (Hs & Hc & Ho & _). now rewrite Hs, Hc, Ho.
Qed.

Lemma inject_Z_nonneg (n : Z) : (0 < n)%Z -> 0 <= inject_Z n.
Proof. intros H. change 0 with (inject_Z 0). rewrite <- Zle_Qle. lia. Qed.

Lemma clamp_between (q lo hi : Q) :
  lo <= hi -> lo <= Qmin (Qmax q lo) hi /\ Qmin (Qmax q lo) hi <= hi.
Proof.
  intros H. split.
  - apply Q.min_glb; [apply Q.le_max_r | exact H].
  - apply Q.le_min_r.
Qed.

Lemma clamp_insideGrid (g : Grid.t) (q : Vector3) :
  gridInvariant g ->
  insideGrid g (min (max q (Grid.leftBottomBackPos g))
                    (add (Grid.gridDimensions g) (Grid.leftBottomBackPos g))).
Proof.
  intros (Hc & Hx & Hy & Hz & _).
  apply inject_Z_nonneg in Hx, Hy, Hz.
  unfold insideGrid, Grid.gridDimensions, Grid.cellDimensions. simpl.
  set (hz := if Grid.is2D g then 1 else Grid.cellSize g).
  assert (Hd : 0 < hz) by (unfold hz; destruct (Grid.is2D g); lra).
  set (o := Grid.leftBottomBackPos g).
  pose proof (Qmult_le_0_compat _ _ (Qlt_le_weak _ _ Hc) Hx) as Px.
  pose proof (Qmult_le_0_compat _ _ (Qlt_le_weak _ _ Hc) Hy) as Py.
  pose proof (Qmult_le_0_compat _ _ (Qlt_le_weak _ _ Hd) Hz) as Pz.
  revert Px Py Pz.
  generalize (Grid.cellSize g * inject_Z (ix (Grid.size g))).
  generalize (Grid.cellSize g * inject_Z (iy (Grid.size g))).
  generalize (hz * inject_Z (iz (Grid.size g))).
  intros dz dy dx Px Py Pz.
  split; [| split].
  - destruct (clamp_between (x q) (x o) (dx + x o)) as [L U];
      [lra | split; [exact L | now rewrite (Qplus_comm (x o))]].
  - destruct (clamp_between (y q) (y o) (dy + y o)) as [L U];
      [lra | split; [exact L | now rewrite (Qplus_comm (y o))]].
  - destruct (clamp_between (z q) (z o) (dz + z o)) as [L U];
      [lra | split; [exact L | now rewrite (Qplus_comm (z o))]].
Qed.

Lemma step_positive_inside (s : MPMSystem.t) (dt : Q) (s' : MPMSystem.t) :
  gridInvariant (MPMSystem.grid s) ->
  0 < dt ->
  MPMSystem.step s dt = Some s' ->
  allInside s'.
Proof.
  intros Hinv Hdt E.
  destruct (step_positive_inv s dt s' Hdt E) as [Hs HF].
  unfold allInside. apply Forall2_Forall_r with (1 := HF).
  apply Forall_forall. intros p _ p' [_ [q Hq]].
  apply (insideGrid_sameShape _ _ _ Hs). rewrite Hq.
  now apply clamp_insideGrid.
Qed.

Lemma steps_inside (dts : list Q) :
  forall s,
    gridInvariant (MPMSystem.grid s) ->
    allInside s ->
    exists s', MPMSystem.steps s dts = Some s' /\ allInside s'.
Proof.
  unfold MPMSystem.steps.
  induction dts as [| dt dts IH]; simpl; intros s Hinv Hin.
  - eauto.
  - destruct (step_positive_total s dt) as [s1 E];
      [apply Hinv |]. rewrite E.
    apply IH.
    + apply (gridInvariant_sameShape (MPMSystem.grid s)); [| exact Hinv].
      apply (step_inv_frame s dt s1 E).
    + destruct (Qlt_le_dec 0 dt) as [Hdt | Hdt].
      * exact (step_positive_inside s dt s1 Hinv Hdt E).
      * rewrite (step_returns_early s dt Hdt) in E. now injection E as <-.
Qed.


(** ** Indices that are valid only once flattened *)

(** C5.  [isValidCellIndex] tests the flattened index alone.  On the
    64 x 64 x 1 grid of [new MPMSystem(0.1)] the triple [(-1, 1, 0)] lies
    outside the lattice and is accepted, and it names the cell of
    [(63, 0, 0)].  For a particle in cell [(0, 1, 0)] the neighbour loops
    reach that triple: [_particleToGrid] deposits the mass [3/32] in cell
    [(63, 0, 0)], and [_gridToParticle] gives the particle [3/32] of that
    cell's velocity. *)
Theorem isValidCellIndex_flat_index_only :
  (forall g i j k,
      Grid.isValidCellIndex g i j k = true <->
      (0 <= Grid._toFlatIndex g i j k < Z.of_nat (length (Grid.data g)))%Z) /\
  let g := MPMSystem.grid (MPMSystem.new (1 # 10)) in
  ~ inLattice g (-1) 1 0 /\
  Grid.isValidCellIndex g (-1) 1 0 = true /\
  inLattice g 63 0 0 /\
  Grid._toFlatIndex g (-1) 1 0 = Grid._toFlatIndex g 63 0 0 /\
  Grid.cellPositionToIndex g (Particle.pos edgeParticle) = mkIVector3 0 1 0 /\
  (exists m, p2gMassAt g [edgeParticle] (mkIVector3 63 0 0) = Some m /\
             m == 3 # 32) /\
  (exists v, g2pVelocities farCellMoving [edgeParticle] (1 # 60) = Some [v] /\
             veq v (mkVector3 (3 # 32) 0 0)).
Proof.
  split; [exact isValidCellIndex_spec |].
  split; [| split; [| split; [| split; [| split; [| split]]]]].
  - unfold inLattice. change (Grid.size _) with (mkIVector3 64 64 1).
    simpl. lia.
  - vm_compute. reflexivity.
  - unfold inLattice. change (Grid.size _) with (mkIVector3 64 64 1).
    simpl. lia.
  - reflexivity.
  - vm_compute. reflexivity.
  - eexists. split; [vm_compute; reflexivity |]. reflexivity.
  - eexists. split; [vm_compute; reflexivity |]. now repeat split.
Qed.

(** ** The kernel on its pieces *)

Lemma Qabs_cases (t : Q) :
  (0 <= t /\ Qabs t == t) \/ (t <= 0 /\ Qabs t == - t).
Proof.
  destruct (Qlt_le_dec t 0) as [H | H].
  - right. split; [lra | apply Qabs_neg; lra].
  - left. split; [exact H | now apply Qabs_pos].
Qed.

Lemma getNQuadratic_centre (t : Q) :
  - (1 # 2) <= t <= 1 # 2 -> Grid.getNQuadratic t == (3 # 4) - t * t.
Proof.
  intros Ht. unfold Grid.getNQuadratic.
  destruct (Qabs_cases t) as [[Hs Ha] | [Hs Ha]];
    revert Ha; generalize (Qabs t); intros a Ha;
    destruct (Qlt_bool a (1 # 2)) eqn:E1;
    try (rewrite Ha; ring);
    apply Qlt_bool_false_iff in E1;
    (destruct (Qlt_bool a (3 # 2)) eqn:E2;
     [| apply Qlt_bool_false_iff in E2; lra]).
  - assert (Et : t == 1 # 2) by lra. rewrite Ha, Et. reflexivity.
  - assert (Et : t == - (1 # 2)) by lra. rewrite Ha, Et. reflexivity.
Qed.

Lemma getNQuadratic_right (t : Q) :
  1 # 2 <= t <= 3 # 2 ->
  Grid.getNQuadratic t == (1 # 2) * ((3 # 2) - t) * ((3 # 2) - t).
Proof.
  intros Ht. unfold Grid.getNQuadratic.
  assert (Ha : Qabs t == t) by (apply Qabs_pos; lra).
  revert Ha; generalize (Qabs t); intros a Ha.
  destruct (Qlt_bool a (1 # 2)) eqn:E1.
  - apply Qlt_bool_iff in E1. lra.
  - destruct (Qlt_bool a (3 # 2)) eqn:E2.
    + rewrite Ha. reflexivity.
    + apply Qlt_bool_false_iff in E2.
      assert (Et : t == 3 # 2) by lra. rewrite Et. reflexivity.
Qed.

Lemma getNQuadratic_left (t : Q) :
  - (3 # 2) <= t <= - (1 # 2) ->
  Grid.getNQuadratic t == (1 # 2) * ((3 # 2) + t) * ((3 # 2) + t).
Proof.
  intros Ht. rewrite <- getNQuadratic_opp.
  rewrite getNQuadratic_right by lra. ring.
Qed.

(** ** The three cells along one axis *)

Lemma floor_bounds (u : Q) :
  inject_Z (Qfloor u) <= u /\ u < inject_Z (Qfloor u) + 1.
Proof.
  split; [apply Qfloor_le |].
  pose proof (Qlt_floor u) as H. now rewrite inject_Z_plus in H.
Qed.

Lemma axisDistance_eq (o cs p : Q) (d : Z) :
  0 < cs ->
  axisDistance o cs cs p d
  == (p - o) / cs - inject_Z (Qfloor ((p - o) / cs)) - inject_Z d - (1 # 2).
Proof.
  intros Hc. unfold axisDistance. rewrite inject_Z_plus. field. lra.
Qed.

Lemma axis_partition_of_unity (o cs p : Q) :
  0 < cs ->
  Grid.getNQuadratic (axisDistance o cs cs p (-1))
  + Grid.getNQuadratic (axisDistance o cs cs p 0)
  + Grid.getNQuadratic (axisDistance o cs cs p 1) == 1.
Proof.
  intros Hc.
  pose proof (axisDistance_eq o cs p (-1) Hc) as Em.
  pose proof (axisDistance_eq o cs p 0 Hc) as E0.
  pose proof (axisDistance_eq o cs p 1 Hc) as Ep.
  destruct (floor_bounds ((p - o) / cs)) as [Hlo Hhi].
  revert Em E0 Ep Hlo Hhi.
  generalize (axisDistance o cs cs p (-1)), (axisDistance o cs cs p 0),
             (axisDistance o cs cs p 1), (inject_Z (Qfloor ((p - o) / cs))),
             ((p - o) / cs).
  intros tm t0 tp i u Em E0 Ep Hlo Hhi.
  change (inject_Z (-1)) with (- (1)) in Em.
  change (inject_Z 0) with 0 in E0. change (inject_Z 1) with 1 in Ep.
  rewrite (getNQuadratic_right tm) by lra.
  rewrite (getNQuadratic_centre t0) by lra.
  rewrite (getNQuadratic_left tp) by lra.
  rewrite Em, E0, Ep. ring.
Qed.

(** ** The weight of a neighbour inside the lattice *)

Lemma isValidCellIndex_inLattice (g : Grid.t) (i j k : Z) :
  gridInvariant g -> inLattice g i j k ->
  Grid.isValidCellIndex g i j k = true.
Proof.
  intros (_ & Hx & Hy & Hz & Hlen) Hin.
  apply isValidCellIndex_spec. rewrite Hlen.
  pose proof (toFlatIndex_range g i j k Hin) as Hr.
  rewrite Z2Nat.id; [exact Hr | nia].
Qed.

Lemma getWeight_valid (g : Grid.t) (pos : Vector3) (delta : IVector3) :
  let o := Grid.leftBottomBackPos g in
  let cs := Grid.cellSize g in
  let idx := iadd (Grid.cellPositionToIndex g pos) delta in
  Grid.isValidCellIndex g (ix idx) (iy idx) (iz idx) = true ->
  Grid.getWeight g pos delta
  = Grid.getNQuadratic (axisDistance (x o) cs cs (x pos) (ix delta))
    * Grid.getNQuadratic (axisDistance (y o) cs cs (y pos) (iy delta))
    * (if Grid.is2D g then 1
       else Grid.getNQuadratic
              (axisDistance (z o) cs (z (Grid.cellDimensions g)) (z pos)
                            (iz delta))).
Proof.
  intros o cs idx H. unfold Grid.getWeight. fold idx. rewrite H. reflexivity.
Qed.

Lemma floor_awayFromEnds (o cs : Q) (n : Z) (p : Q) :
  0 < cs -> awayFromEnds o cs n p ->
  (1 <= Qfloor ((p - o) / cs) <= n - 2)%Z.
Proof.
  intros Hc [Hlo Hhi].
  assert (Hu1 : 3 # 2 <= (p - o) / cs) by (apply Qle_shift_div_l; lra).
  assert (Hu2 : (p - o) / cs <= inject_Z n - (3 # 2))
    by (apply Qle_shift_div_r; lra).
  destruct (floor_bounds ((p - o) / cs)) as [Fl Fh].
  revert Hu1 Hu2 Fl Fh. generalize ((p - o) / cs). intros u Hu1 Hu2 Fl Fh.
  set (i := Qfloor u) in *. split.
  - destruct (Z_lt_le_dec i 1) as [Hi | Hi]; [| exact Hi].
    assert (Hq : inject_Z i <= inject_Z 0) by (rewrite <- Zle_Qle; lia).
    change (inject_Z 0) with 0 in Hq. lra.
  - destruct (Z_lt_le_dec (n - 2) i) as [Hi | Hi]; [| exact Hi].
    assert (Hq : inject_Z (n + -1) <= inject_Z i) by (rewrite <- Zle_Qle; lia).
    rewrite inject_Z_plus in Hq. change (inject_Z (-1)) with (- (1)) in Hq.
    lra.
Qed.

Lemma floor_unit_layer (o p : Q) :
  o <= p -> p < o + 1 -> Qfloor ((p - o) / 1) = 0%Z.
Proof.
  intros Hlo Hhi.
  assert (Eu : (p - o) / 1 == p - o) by field.
  destruct (floor_bounds ((p - o) / 1)) as [Fl Fh].
  revert Fl Fh. generalize (Qfloor ((p - o) / 1)). intros i.
  revert Eu. generalize ((p - o) / 1). intros u Eu Fl Fh.
  destruct (Z_lt_le_dec i 0) as [Hi | Hi].
  - assert (Hq : inject_Z (i + 1) <= inject_Z 0) by (rewrite <- Zle_Qle; lia).
    rewrite inject_Z_plus in Hq.
    change (inject_Z 0) with 0 in Hq. change (inject_Z 1) with 1 in Hq. lra.
  - destruct (Z_lt_le_dec 0 i) as [Hj | Hj]; [| lia].
    assert (Hq : inject_Z 1 <= inject_Z i) by (rewrite <- Zle_Qle; lia).
    change (inject_Z 1) with 1 in Hq. lra.
Qed.

(** ** Partition of unity *)

Lemma neighbourDeltas_2D :
  MPMSystem.neighbourDeltas true =
  [
    mkIVector3 (-1) (-1) 0; mkIVector3 (-1) 0 0; mkIVector3 (-1) 1 0;
    mkIVector3 0 (-1) 0; mkIVector3 0 0 0; mkIVector3 0 1 0;
    mkIVector3 1 (-1) 0; mkIVector3 1 0 0; mkIVector3 1 1 0 ].
Proof. reflexivity. Qed.

Lemma neighbourDeltas_3D :
  MPMSystem.neighbourDeltas false =
  [
    mkIVector3 (-1) (-1) (-1); mkIVector3 (-1) (-1) 0; mkIVector3 (-1) (-1) 1;
    mkIVector3 (-1) 0 (-1); mkIVector3 (-1) 0 0; mkIVector3 (-1) 0 1;
    mkIVector3 (-1) 1 (-1); mkIVector3 (-1) 1 0; mkIVector3 (-1) 1 1;
    mkIVector3 0 (-1) (-1); mkIVector3 0 (-1) 0; mkIVector3 0 (-1) 1;
    mkIVector3 0 0 (-1); mkIVector3 0 0 0; mkIVector3 0 0 1;
    mkIVector3 0 1 (-1); mkIVector3 0 1 0; mkIVector3 0 1 1;
    mkIVector3 1 (-1) (-1); mkIVector3 1 (-1) 0; mkIVector3 1 (-1) 1;
    mkIVector3 1 0 (-1); mkIVector3 1 0 0; mkIVector3 1 0 1;
    mkIVector3 1 1 (-1); mkIVector3 1 1 0; mkIVector3 1 1 1 ].
Proof. reflexivity. Qed.

Lemma is2D_true (g : Grid.t) : Grid.is2D g = true -> iz (Grid.size g) = 1%Z.
Proof. unfold Grid.is2D. apply Z.eqb_eq. Qed.

Section Interior.

Variable g : Grid.t.
Variable pos : Vector3.
Hypothesis Hinv : gridInvariant g.
Hypothesis Hint : interior g pos.

Lemma getWeight_interior_2D (dx dy : Z) :
  Grid.is2D g = true ->
  z (Grid.leftBottomBackPos g) <= z pos ->
  z pos < z (Grid.leftBottomBackPos g) + 1 ->
  (-1 <= dx <= 1)%Z -> (-1 <= dy <= 1)%Z ->
  Grid.getWeight g pos (mkIVector3 dx dy 0)
  = Grid.getNQuadratic
      (axisDistance (x (Grid.leftBottomBackPos g)) (Grid.cellSize g)
                    (Grid.cellSize g) (x pos) dx)
    * Grid.getNQuadratic
      (axisDistance (y (Grid.leftBottomBackPos g)) (Grid.cellSize g)
                    (Grid.cellSize g) (y pos) dy) * 1.
Proof.
  intros E Hlo Hhi Hdx Hdy.
  destruct Hinv as (Hc & _). destruct Hint as (Hx & Hy & _).
  rewrite getWeight_valid; [now rewrite E |].
  apply isValidCellIndex_inLattice; [exact Hinv |].
  pose proof (floor_awayFromEnds _ _ _ _ Hc Hx) as Fx.
  pose proof (floor_awayFromEnds _ _ _ _ Hc Hy) as Fy.
  unfold inLattice, Grid.cellPositionToIndex, Grid.cellDimensions.
  rewrite E, (is2D_true g E).
  cbn [floor divide sub iadd ix iy iz x y z].
  rewrite (floor_unit_layer (z (Grid.leftBottomBackPos g)) (z pos) Hlo Hhi).
  lia.
Qed.

Lemma getWeight_interior_3D (dx dy dz : Z) :
  Grid.is2D g = false ->
  (-1 <= dx <= 1)%Z -> (-1 <= dy <= 1)%Z -> (-1 <= dz <= 1)%Z ->
  Grid.getWeight g pos (mkIVector3 dx dy dz)
  = Grid.getNQuadratic
      (axisDistance (x (Grid.leftBottomBackPos g)) (Grid.cellSize g)
                    (Grid.cellSize g) (x pos) dx)
    * Grid.getNQuadratic
      (axisDistance (y (Grid.leftBottomBackPos g)) (Grid.cellSize g)
                    (Grid.cellSize g) (y pos) dy)
    * Grid.getNQuadratic
      (axisDistance (z (Grid.leftBottomBackPos g)) (Grid.cellSize g)
                    (Grid.cellSize g) (z pos) dz).
Proof.
  intros E Hdx Hdy Hdz.
  destruct Hinv as (Hc & _). destruct Hint as (Hx & Hy & Hz).
  specialize (Hz E).
  rewrite getWeight_valid.
  - unfold Grid.cellDimensions. now rewrite E.
  - apply isValidCellIndex_inLattice; [exact Hinv |].
    pose proof (floor_awayFromEnds _ _ _ _ Hc Hx) as Fx.
    pose proof (floor_awayFromEnds _ _ _ _ Hc Hy) as Fy.
    pose proof (floor_awayFromEnds _ _ _ _ Hc Hz) as Fz.
    unfold inLattice, Grid.cellPositionToIndex, Grid.cellDimensions.
    rewrite E. cbn [floor divide sub iadd ix iy iz x y z]. lia.
Qed.

End Interior.



(** ** The constructors establish the invariant *)

Lemma gridInvariant_new (size : IVector3) (cellSize : Q) (o : Vector3) :
  0 < cellSize -> (0 < ix size)%Z -> (0 < iy size)%Z -> (0 < iz size)%Z ->
  gridInvariant (Grid.new size cellSize o).
Proof.
  intros Hc Hx Hy Hz. unfold gridInvariant, Grid.new, Grid._initData. simpl.
  repeat (split; [assumption |]). apply length_replicate.
Qed.

Lemma gridInvariant_seeded (cellSize : Q) :
  0 < cellSize -> gridInvariant (MPMSystem.grid (seeded cellSize)).
Proof.
  intros Hc. apply gridInvariant_new; [exact Hc | reflexivity ..].
Qed.

Lemma allInside_seeded : allInside (seeded (1 # 10)).
Proof.
  unfold allInside. simpl.
  repeat constructor; vm_compute; discriminate.
Qed.

(** ** Instances *)

Lemma step_nonpositive_dt_witness :
  - (1 # 60) <= 0 /\
  MPMSystem.step (seeded (1 # 10)) (- (1 # 60)) = Some (seeded (1 # 10)).
Proof.
  split; [vm_compute; discriminate |].
  apply (step_nonpositive_dt (seeded (1 # 10)) (- (1 # 60))).
  vm_compute; discriminate.
Defined.


Lemma step_frame_witness :
  gridInvariant (MPMSystem.grid (seeded (1 # 10))) /\
  exists s',
    MPMSystem.step (seeded (1 # 10)) (1 # 60) = Some s' /\
    stepFrame (seeded (1 # 10)) s' /\
    length (MPMSystem.particles s') = 4%nat /\
    (Particle.mass <$> MPMSystem.particles s') = [1; 1; 1; 1].
Proof.
  split.
  - apply gridInvariant_seeded. reflexivity.
  - destruct (step_frame (seeded (1 # 10)) (1 # 60)) as [Hframe Htotal].
    destruct Htotal as [s' E]; [apply gridInvariant_seeded; reflexivity |].
    exists s'. split; [exact E |].
    destruct (Hframe s' E) as (H1 & H2 & H3 & _). auto.
Defined.



(** * More of the grid *)

(** ** The flat index and the cells it reaches *)

Lemma toFlatIndex_onto (g : Grid.t) (n : Z) :
  (0 < ix (Grid.size g))%Z -> (0 < iy (Grid.size g))%Z ->
  (0 <= n < ix (Grid.size g) * iy (Grid.size g) * iz (Grid.size g))%Z ->
  exists i j k, inLattice g i j k /\ Grid._toFlatIndex g i j k = n.
Proof.
  unfold inLattice, Grid._toFlatIndex.
  set (sx := ix (Grid.size g)). set (sy := iy (Grid.size g)).
  set (sz := iz (Grid.size g)). intros Hx Hy Hn.
  exists (n mod sx)%Z, ((n / sx) mod sy)%Z, (n / sx / sy)%Z.
  pose proof (Z.mod_pos_bound n sx Hx) as Hi.
  pose proof (Z.mod_pos_bound (n / sx) sy Hy) as Hj.
  pose proof (Z.div_mod n sx ltac:(lia)) as En.
  pose proof (Z.div_mod (n / sx) sy ltac:(lia)) as Em.
  assert (Hm : (0 <= n / sx < sy * sz)%Z).
  { split; [apply Z.div_pos; lia |].
    apply Z.div_lt_upper_bound; [lia |]. nia. }
  assert (Hk : (0 <= n / sx / sy < sz)%Z).
  { split; [apply Z.div_pos; lia |].
    apply Z.div_lt_upper_bound; lia. }
  repeat split; lia.
Qed.

(** X1.  On a grid with positive sizes the flat index
    [x + y * size.x + z * size.x * size.y] is a bijection between the index
    triples of the lattice and the positions [0 .. size.x*size.y*size.z - 1]
    of the cell array. *)
Theorem toFlatIndex_bijection (g : Grid.t) :
  (0 < ix (Grid.size g))%Z -> (0 < iy (Grid.size g))%Z ->
  (forall i j k,
      inLattice g i j k ->
      (0 <= Grid._toFlatIndex g i j k
       < ix (Grid.size g) * iy (Grid.size g) * iz (Grid.size g))%Z) /\
  (forall i j k i' j' k',
      inLattice g i j k -> inLattice g i' j' k' ->
      Grid._toFlatIndex g i j k = Grid._toFlatIndex g i' j' k' ->
      i = i' /\ j = j' /\ k = k') /\
  (forall n,
      (0 <= n < ix (Grid.size g) * iy (Grid.size g) * iz (Grid.size g))%Z ->
      exists i j k, inLattice g i j k /\ Grid._toFlatIndex g i j k = n).
Proof.
  intros Hx Hy. split; [| split].
  - apply toFlatIndex_range.
  - apply toFlatIndex_inj.
  - intros n Hn. now apply toFlatIndex_onto.
Qed.

Lemma dataAt_is_Some (d : list Cell.t) (f : Z) :
  is_Some (Grid.dataAt d f) <-> (0 <= f < Z.of_nat (length d))%Z.
Proof.
  unfold Grid.dataAt. destruct (Z.ltb_spec f 0) as [H | H].
  - split; [intros [c Hc]; discriminate | lia].
  - rewrite lookup_lt_is_Some. lia.
Qed.

(** X2.  [isValidCellIndex] accepts an index triple exactly when [getCell]
    finds a cell for it: behind the guard [getCell] never returns
    [undefined], and wherever the guard fails it does. *)
Theorem isValidCellIndex_iff_getCell (g : Grid.t) (i j k : Z) :
  Grid.isValidCellIndex g i j k = true <->
  exists c, Grid.getCell g (mkIVector3 i j k) = Some c.
Proof.
  rewrite isValidCellIndex_spec. unfold Grid.getCell. simpl.
  rewrite <- dataAt_is_Some. reflexivity.
Qed.

Lemma Cell_reset_new (c : Cell.t) : Cell.reset c = Cell.new.
Proof. reflexivity. Qed.

Lemma fmap_reset_replicate (d : list Cell.t) :
  Cell.reset <$> d = replicate (length d) Cell.new.
Proof.
  induction d as [| c d IH]; [reflexivity |].
  rewrite fmap_cons. simpl. now rewrite IH.
Qed.

(** X3.  The constructor builds a grid on which every index triple of the
    lattice is valid and names a cell with zero mass, momentum, velocity
    and force. *)
Theorem new_grid_cells (size : IVector3) (cellSize : Q) (o : Vector3)
        (i j k : Z) :
  inLattice (Grid.new size cellSize o) i j k ->
  Grid.isValidCellIndex (Grid.new size cellSize o) i j k = true /\
  Grid.getCell (Grid.new size cellSize o) (mkIVector3 i j k)
  = Some (Cell.mk 0 ZeroVector3 ZeroVector3 ZeroVector3).
Proof.
  intros Hin.
  pose proof (toFlatIndex_range _ i j k Hin) as Hr.
  assert (Hlen : Z.of_nat (length (Grid.data (Grid.new size cellSize o)))
                 = (ix size * iy size * iz size)%Z).
  { simpl. unfold Grid._initData. rewrite length_replicate.
    simpl in Hr. lia. }
  split.
  - apply isValidCellIndex_spec. rewrite Hlen. exact Hr.
  - unfold Grid.getCell, Grid.dataAt. simpl in *.
    set (f := Grid._toFlatIndex (Grid.new size cellSize o) i j k) in *.
    destruct (Z.ltb_spec f 0) as [H | H]; [lia |].
    unfold Grid._initData. apply lookup_replicate_2. lia.
Qed.

(** X4.  [resetCells] puts a grid with one cell per index triple back in
    the state the constructor built: the same size, cell size and origin
    and every cell zero. *)
Theorem resetCells_is_new (g : Grid.t) :
  length (Grid.data g)
  = Z.to_nat (ix (Grid.size g) * iy (Grid.size g) * iz (Grid.size g)) ->
  Grid.resetCells g
  = Grid.new (Grid.size g) (Grid.cellSize g) (Grid.leftBottomBackPos g).
Proof.
  intros Hlen. unfold Grid.resetCells, Grid.withData, Grid.new, Grid._initData.
  now rewrite fmap_reset_replicate, Hlen.
Qed.

(** ** Positions and indices *)

Lemma Qfloor_unique (u : Q) (i : Z) :
  inject_Z i <= u -> u < inject_Z i + 1 -> Qfloor u = i.
Proof.
  intros Hlo Hhi. destruct (floor_bounds u) as [Fl Fh].
  revert Fl Fh. generalize (Qfloor u). intros f Fl Fh.
  destruct (Z.lt_trichotomy f i) as [H | [H | H]]; [| exact H |].
  - assert (Hq : inject_Z (f + 1) <= inject_Z i) by (rewrite <- Zle_Qle; lia).
    rewrite inject_Z_plus in Hq. change (inject_Z 1) with 1 in Hq. lra.
  - assert (Hq : inject_Z (i + 1) <= inject_Z f) by (rewrite <- Zle_Qle; lia).
    rewrite inject_Z_plus in Hq. change (inject_Z 1) with 1 in Hq. lra.
Qed.

Lemma floor_cell (o h p : Q) :
  0 < h ->
  o + inject_Z (Qfloor ((p - o) / h)) * h <= p /\
  p < o + (inject_Z (Qfloor ((p - o) / h)) + 1) * h.
Proof.
  intros Hh. destruct (floor_bounds ((p - o) / h)) as [Fl Fh].
  assert (Eu : (p - o) / h * h == p - o) by (field; lra).
  revert Fl Fh Eu. generalize (inject_Z (Qfloor ((p - o) / h))). intros i.
  generalize ((p - o) / h). intros u Fl Fh Eu. split.
  - assert (H : i * h <= u * h) by (apply Qmult_le_compat_r; lra). lra.
  - assert (H : u * h < (i + 1) * h) by (apply Qmult_lt_compat_r; lra). lra.
Qed.


Lemma floor_of_centre (o cs : Q) (i : Z) :
  0 < cs -> Qfloor (((inject_Z i + (1 # 2)) * cs + o - o) / cs) = i.
Proof.
  intros Hc.
  assert (E : ((inject_Z i + (1 # 2)) * cs + o - o) / cs
              == inject_Z i + (1 # 2)) by (field; lra).
  rewrite E. apply Qfloor_unique; lra.
Qed.

(** X6.  For a positive cell size, the index of the position of a cell is
    that cell again on [x] and [y], and on [z] for a 3D grid.  On a 2D
    grid, where the position is scaled by [cellSize] and the index by the
    unit [z] cell dimension, the [z] index that comes back is
    [floor((k + 0.5) * cellSize)]: [0] for the one layer [k = 0] as long as
    [cellSize < 2]. *)
Theorem cellIndexToPosition_round_trip (g : Grid.t) (i j k : Z) :
  0 < Grid.cellSize g ->
  let idx := Grid.cellPositionToIndex g (Grid.cellIndexToPosition g i j k) in
  ix idx = i /\ iy idx = j /\
  iz idx = (if Grid.is2D g
            then Qfloor ((inject_Z k + (1 # 2)) * Grid.cellSize g)
            else k) /\
  (Grid.is2D g = true -> k = 0%Z -> Grid.cellSize g < 2 -> iz idx = 0%Z).
Proof.
  intros Hc. unfold Grid.cellPositionToIndex, Grid.cellIndexToPosition,
               Grid.cellDimensions.
  cbn [floor divide sub add multiplyScalar addScalar ofIndex ix iy iz x y z].
  split; [apply floor_of_centre, Hc |].
  split; [apply floor_of_centre, Hc |].
  destruct (Grid.is2D g).
  - assert (E : ((inject_Z k + (1 # 2)) * Grid.cellSize g
                 + z (Grid.leftBottomBackPos g)
                 - z (Grid.leftBottomBackPos g)) / 1
                == (inject_Z k + (1 # 2)) * Grid.cellSize g) by field.
    rewrite E. split; [reflexivity |].
    intros _ -> Hlt. apply Qfloor_unique.
    + change (inject_Z 0) with 0. lra.
    + change (inject_Z 0) with 0. lra.
  - split; [apply floor_of_centre, Hc | discriminate].
Qed.

Lemma floor_in_lattice (o h : Q) (n : Z) (p : Q) :
  0 < h -> o <= p -> p < o + h * inject_Z n ->
  (0 <= Qfloor ((p - o) / h) < n)%Z.
Proof.
  intros Hh Hlo Hhi.
  assert (Hu0 : 0 <= (p - o) / h) by (apply Qle_shift_div_l; lra).
  assert (Hu1 : (p - o) / h < inject_Z n) by (apply Qlt_shift_div_r; lra).
  destruct (floor_bounds ((p - o) / h)) as [Fl Fh].
  revert Hu0 Hu1 Fl Fh. generalize ((p - o) / h). intros u Hu0 Hu1 Fl Fh.
  split.
  - destruct (Z_lt_le_dec (Qfloor u) 0) as [H | H]; [| exact H].
    assert (Hq : inject_Z (Qfloor u + 1) <= inject_Z 0)
      by (rewrite <- Zle_Qle; lia).
    rewrite inject_Z_plus in Hq.
    change (inject_Z 1) with 1 in Hq. change (inject_Z 0) with 0 in Hq. lra.
  - rewrite Zlt_Qlt. lra.
Qed.

Lemma floor_on_upper_face (o h : Q) (n : Z) (p : Q) :
  0 < h -> p == o + h * inject_Z n -> Qfloor ((p - o) / h) = n.
Proof.
  intros Hh Hp.
  assert (E : (p - o) / h == inject_Z n) by (rewrite Hp; field; lra).
  rewrite E. apply Qfloor_Z.
Qed.


(** X8.  On a grid that satisfies the constructor's invariant, the centre
    [cellIndexToPosition] gives a cell of the lattice lies inside the
    bounds of the grid, provided, on a 2D grid, that [cellSize <= 2] (the
    [z] coordinate of the centre is [origin.z + (k + 0.5) * cellSize] and
    the box is one unit deep). *)
Theorem cellIndexToPosition_inside (g : Grid.t) (i j k : Z) :
  gridInvariant g -> inLattice g i j k ->
  (Grid.is2D g = true -> Grid.cellSize g <= 2) ->
  insideGrid g (Grid.cellIndexToPosition g i j k).
Proof.
  intros (Hc & _) ((Hi1 & Hi2) & (Hj1 & Hj2) & (Hk1 & Hk2)) H2.
  assert (Q1 : forall n m : Z, (0 <= n < m)%Z ->
               0 <= inject_Z n /\ inject_Z n + 1 <= inject_Z m).
  { intros n m [Hn Hm]. split.
    - change 0 with (inject_Z 0). rewrite <- Zle_Qle. exact Hn.
    - change 1 with (inject_Z 1). rewrite <- inject_Z_plus, <- Zle_Qle. lia. }
  destruct (Q1 i _ (conj Hi1 Hi2)) as [Xi1 Xi2].
  destruct (Q1 j _ (conj Hj1 Hj2)) as [Xj1 Xj2].
  destruct (Q1 k _ (conj Hk1 Hk2)) as [Xk1 Xk2].
  unfold insideGrid, Grid.cellIndexToPosition, Grid.cellDimensions.
  cbn [add multiplyScalar addScalar ofIndex ix iy iz x y z].
  revert Xi1 Xi2 Xj1 Xj2 Xk1 Xk2.
  generalize (inject_Z i), (inject_Z j), (inject_Z k),
             (inject_Z (ix (Grid.size g))), (inject_Z (iy (Grid.size g))).
  intros qi qj qk nx ny Xi1 Xi2 Xj1 Xj2 Xk1 Xk2.
  set (c := Grid.cellSize g) in *.
  split; [| split].
  - split; nra.
  - split; nra.
  - destruct (Grid.is2D g) eqn:E.
    + specialize (H2 eq_refl).
      apply is2D_true in E. rewrite E in *.
      change (inject_Z 1) with 1 in *. split; nra.
    + revert Xk2. generalize (inject_Z (iz (Grid.size g))). intros nz Xk2.
      split; nra.
Qed.

(** ** The kernel and the weights *)

Lemma getNQuadratic_range (t : Q) :
  0 <= Grid.getNQuadratic t /\ Grid.getNQuadratic t <= 3 # 4.
Proof.
  unfold Grid.getNQuadratic.
  pose proof (Qabs_nonneg t) as Ha. revert Ha. generalize (Qabs t).
  intros a Ha.
  destruct (Qlt_bool a (1 # 2)) eqn:E1.
  - apply Qlt_bool_iff in E1. split; nra.
  - apply Qlt_bool_false_iff in E1.
    destruct (Qlt_bool a (3 # 2)) eqn:E2.
    + apply Qlt_bool_iff in E2. split; nra.
    + split; lra.
Qed.

Lemma getNQuadratic_zero_iff (t : Q) :
  Grid.getNQuadratic t == 0 <-> 3 # 2 <= Qabs t.
Proof.
  unfold Grid.getNQuadratic.
  pose proof (Qabs_nonneg t) as Ha. revert Ha. generalize (Qabs t).
  intros a Ha.
  destruct (Qlt_bool a (1 # 2)) eqn:E1.
  - apply Qlt_bool_iff in E1. split; intros H; [nra | lra].
  - apply Qlt_bool_false_iff in E1.
    destruct (Qlt_bool a (3 # 2)) eqn:E2.
    + apply Qlt_bool_iff in E2. split; intros H; [| lra].
      assert (0 < ((3 # 2) - a) * ((3 # 2) - a))
        by (apply Qmult_lt_0_compat; lra).
      lra.
    + apply Qlt_bool_false_iff in E2. split; intros H; [exact E2 | reflexivity].
Qed.

(** X9.  The quadratic kernel takes values between [0] and [3/4], and it
    vanishes exactly at and beyond the distance [1.5]. *)
Theorem getNQuadratic_support (t : Q) :
  0 <= Grid.getNQuadratic t /\ Grid.getNQuadratic t <= 3 # 4 /\
  (Grid.getNQuadratic t == 0 <-> 3 # 2 <= Qabs t).
Proof.
  destruct (getNQuadratic_range t) as [H0 H1].
  split; [exact H0 |]. split; [exact H1 |]. apply getNQuadratic_zero_iff.
Qed.

Lemma getWeight_invalid (g : Grid.t) (pos : Vector3) (delta : IVector3) :
  let idx := iadd (Grid.cellPositionToIndex g pos) delta in
  Grid.isValidCellIndex g (ix idx) (iy idx) (iz idx) = false ->
  Grid.getWeight g pos delta = 0.
Proof.
  intros idx H. unfold Grid.getWeight. fold idx. now rewrite H.
Qed.

Lemma getWeight_range (g : Grid.t) (pos : Vector3) (delta : IVector3) :
  0 <= Grid.getWeight g pos delta /\ Grid.getWeight g pos delta <= 9 # 16.
Proof.
  unfold Grid.getWeight.
  destruct (negb _); [split; lra |].
  set (a := Grid.getNQuadratic _). set (b := Grid.getNQuadratic _).
  destruct (getNQuadratic_range
              (x (divide (sub pos (Grid.cellIndexToPosition g
                    (ix (iadd (Grid.cellPositionToIndex g pos) delta))
                    (iy (iadd (Grid.cellPositionToIndex g pos) delta))
                    (iz (iadd (Grid.cellPositionToIndex g pos) delta))))
                  (Grid.getH g)))) as [A0 A1].
  destruct (getNQuadratic_range
              (y (divide (sub pos (Grid.cellIndexToPosition g
                    (ix (iadd (Grid.cellPositionToIndex g pos) delta))
                    (iy (iadd (Grid.cellPositionToIndex g pos) delta))
                    (iz (iadd (Grid.cellPositionToIndex g pos) delta))))
                  (Grid.getH g)))) as [B0 B1].
  fold a in A0, A1. fold b in B0, B1.
  assert (C : exists c, (if Grid.is2D g then 1
               else Grid.getNQuadratic
                      (z (divide (sub pos (Grid.cellIndexToPosition g
                    (ix (iadd (Grid.cellPositionToIndex g pos) delta))
                    (iy (iadd (Grid.cellPositionToIndex g pos) delta))
                    (iz (iadd (Grid.cellPositionToIndex g pos) delta))))
                  (Grid.getH g)))) = c /\ 0 <= c /\ c <= 1).
  { destruct (Grid.is2D g).
    - exists 1. repeat split; lra.
    - eexists. split; [reflexivity |].
      destruct (getNQuadratic_range
              (z (divide (sub pos (Grid.cellIndexToPosition g
                    (ix (iadd (Grid.cellPositionToIndex g pos) delta))
                    (iy (iadd (Grid.cellPositionToIndex g pos) delta))
                    (iz (iadd (Grid.cellPositionToIndex g pos) delta))))
                  (Grid.getH g)))) as [C0 C1].
      split; lra. }
  destruct C as (c & -> & C0 & C1).
  clearbody a b.
  assert (0 <= a * b) by (apply Qmult_le_0_compat; lra).
  assert (a * b <= 9 # 16) by nra.
  split; nra.
Qed.

(** X10.  On a grid with a positive cell size, a weight is never negative
    and never above [9/16], and the weight of a neighbour whose index is
    not valid is [0]. *)
Theorem getWeight_bounds (g : Grid.t) (pos : Vector3) (delta : IVector3) :
  0 < Grid.cellSize g ->
  0 <= Grid.getWeight g pos delta /\
  Grid.getWeight g pos delta <= 9 # 16 /\
  (let idx := iadd (Grid.cellPositionToIndex g pos) delta in
   Grid.isValidCellIndex g (ix idx) (iy idx) (iz idx) = false ->
   Grid.getWeight g pos delta = 0).
Proof.
  intros _. destruct (getWeight_range g pos delta) as [H0 H1].
  split; [exact H0 |]. split; [exact H1 |]. apply getWeight_invalid.
Qed.

Lemma Qlt_bool_wd (a a' b b' : Q) :
  a == a' -> b == b' -> Qlt_bool a b = Qlt_bool a' b'.
Proof. intros Ha Hb. unfold Qlt_bool. now rewrite Ha, Hb. Qed.

Lemma getNQuadratic_wd (s t : Q) :
  s == t -> Grid.getNQuadratic s == Grid.getNQuadratic t.
Proof.
  intros E. unfold Grid.getNQuadratic.
  assert (Ea : Qabs s == Qabs t) by now rewrite E.
  rewrite (Qlt_bool_wd _ _ (1 # 2) (1 # 2) Ea (Qeq_refl _)).
  rewrite (Qlt_bool_wd _ _ (3 # 2) (3 # 2) Ea (Qeq_refl _)).
  destruct (Qlt_bool (Qabs t) (1 # 2)); [now rewrite Ea |].
  destruct (Qlt_bool (Qabs t) (3 # 2)); [now rewrite Ea | reflexivity].
Qed.

(** X11.  On a grid with a positive cell size, [getWeightGradient] is the
    zero vector for a neighbour whose index is not valid.  On a 2D grid the
    [z] component of the gradient is not the zero of a planar gradient:
    with the factor [1] the code puts in place of the derivative along [z],
    it equals the weight itself. *)
Theorem getWeightGradient_2D (g : Grid.t) (pos : Vector3) (delta : IVector3) :
  0 < Grid.cellSize g ->
  (let idx := iadd (Grid.cellPositionToIndex g pos) delta in
   Grid.isValidCellIndex g (ix idx) (iy idx) (iz idx) = false ->
   Grid.getWeightGradient g pos delta = ZeroVector3) /\
  (Grid.is2D g = true ->
   z (Grid.getWeightGradient g pos delta) == Grid.getWeight g pos delta).
Proof.
  intros _. split.
  - intros idx H. unfold Grid.getWeightGradient. fold idx. now rewrite H.
  - intros E. unfold Grid.getWeightGradient, Grid.getWeight.
    destruct (negb _); [reflexivity |].
    unfold Grid.getInvH, Grid.invCellDimensions, Grid.getH,
      Grid.cellDimensions.
    rewrite E. cbn [multiply divide sub x y z].
    set (gp := Grid.cellIndexToPosition g _ _ _).
    rewrite (getNQuadratic_wd ((x pos - x gp) * (1 / Grid.cellSize g))
                              ((x pos - x gp) / Grid.cellSize g))
      by (unfold Qdiv; ring).
    rewrite (getNQuadratic_wd ((y pos - y gp) * (1 / Grid.cellSize g))
                              ((y pos - y gp) / Grid.cellSize g))
      by (unfold Qdiv; ring).
    ring.
Qed.

(** * More of the simulation *)

(** ** Seeding *)

Lemma length_bind_const {A B : Type} (f : A -> list B) (n : nat) (l : list A) :
  (forall a, a ∈ l -> length (f a) = n) ->
  length (l ≫= f) = (length l * n)%nat.
Proof.
  induction l as [| a l IH]; intros H; [reflexivity |].
  rewrite bind_cons, length_app, IH.
  - rewrite (H a) by left. simpl. reflexivity.
  - intros b Hb. apply H. now right.
Qed.

Lemma elem_of_seeds (min : Vector3) (size mass : Q) (n : IVector3)
      (p : Particle.t) :
  p ∈ (x' ← upTo (ix n); y' ← upTo (iy n); z' ← upTo (iz n);
       [seedAt min size mass x' y' z']) <->
  exists i j k,
    (0 <= i < ix n)%Z /\ (0 <= j < iy n)%Z /\ (0 <= k < iz n)%Z /\
    p = seedAt min size mass i j k.
Proof.
  unfold upTo. rewrite list_elem_of_bind. split.
  - intros (i & Hi & Hx). apply list_elem_of_bind in Hi as (j & Hj & Hy).
    apply list_elem_of_bind in Hj as (k & Hk & Hz).
    apply list_elem_of_singleton in Hk.
    apply elem_of_seqZ in Hx, Hy, Hz. exists i, j, k.
    repeat split; try lia. exact Hk.
  - intros (i & j & k & Hx & Hy & Hz & ->).
    exists i. split; [| apply elem_of_seqZ; lia].
    apply list_elem_of_bind. exists j. split; [| apply elem_of_seqZ; lia].
    apply list_elem_of_bind. exists k. split; [| apply elem_of_seqZ; lia].
    apply list_elem_of_singleton. reflexivity.
Qed.

Lemma length_seeds (min : Vector3) (size mass : Q) (n : IVector3) :
  length (x' ← upTo (ix n); y' ← upTo (iy n); z' ← upTo (iz n);
          [seedAt min size mass x' y' z'])
  = (Z.to_nat (ix n) * (Z.to_nat (iy n) * Z.to_nat (iz n)))%nat.
Proof.
  unfold upTo.
  rewrite (length_bind_const _ (Z.to_nat (iy n) * Z.to_nat (iz n))),
    length_seqZ; [reflexivity |].
  intros i _.
  rewrite (length_bind_const _ (Z.to_nat (iz n))), length_seqZ;
    [reflexivity |].
  intros j _.
  rewrite (length_bind_const _ 1), length_seqZ; [lia |].
  reflexivity.
Qed.


Lemma seed_coordinate_inside (lo hi size : Q) (i : Z) :
  0 < size ->
  (0 <= i < Qfloor ((hi - lo) * (1 / size)))%Z ->
  lo < lo + inject_Z i * size + size / 2 /\
  lo + inject_Z i * size + size / 2 < hi.
Proof.
  intros Hs [Hi0 Hi1].
  assert (Q0 : 0 <= inject_Z i)
    by (change 0 with (inject_Z 0); rewrite <- Zle_Qle; exact Hi0).
  assert (Q1 : inject_Z i + 1 <= (hi - lo) * (1 / size)).
  { apply Qle_trans with (inject_Z (Qfloor ((hi - lo) * (1 / size))));
      [| apply Qfloor_le].
    change 1 with (inject_Z 1) at 1.
    rewrite <- inject_Z_plus, <- Zle_Qle. lia. }
  assert (E : (hi - lo) * (1 / size) * size == hi - lo) by (field; lra).
  revert Q1 E. generalize ((hi - lo) * (1 / size)). intros u Q1 E.
  assert (H : (inject_Z i + 1) * size <= u * size)
    by (apply Qmult_le_compat_r; lra).
  revert Q0 H. generalize (inject_Z i). intros q Q0 H.
  assert (P : 0 <= q * size) by (apply Qmult_le_0_compat; lra).
  assert (Eh : size / 2 == size * (1 # 2)) by field.
  rewrite Eh. split; lra.
Qed.

(** X13.  For a positive [size], every particle [addParticles] appends
    lies strictly inside the box on [x] and on [y]; on [z] it lies strictly
    above [min.z], and strictly below [max.z] whenever the [z] extent holds
    at least one [size]; otherwise the one layer sits at
    [min.z + size / 2]. *)
Theorem addParticles_inside_box (s : MPMSystem.t) (min max : Vector3)
        (size mass : Q) :
  0 < size ->
  exists new,
    MPMSystem.particles (MPMSystem.addParticles s min max size mass)
    = MPMSystem.particles s ++ new /\
    Forall (fun p =>
              (x min < x (Particle.pos p) /\ x (Particle.pos p) < x max) /\
              (y min < y (Particle.pos p) /\ y (Particle.pos p) < y max) /\
              z min < z (Particle.pos p) /\
              (if (Qfloor ((z max - z min) * (1 / size)) =? 0)%Z
               then z (Particle.pos p) == z min + size / 2
               else z (Particle.pos p) < z max))
           new.
Proof.
  intros Hs. eexists. split; [reflexivity |].
  apply Forall_forall. intros p Hp.
  apply (elem_of_seeds min size mass
           (MPMSystem.numParticles min max size)) in Hp
    as (i & j & k & Hi & Hj & Hk & ->).
  unfold MPMSystem.numParticles in Hi, Hj, Hk.
  cbn [floor divideScalar multiplyScalar sub ix iy iz x y z] in Hi, Hj, Hk.
  unfold seedAt, Particle.new. cbn [Particle.pos x y z].
  destruct (Z.eqb_spec (Qfloor ((z max - z min) * (1 / size))) 0) as [E | E];
    cbn [ix iy iz] in Hi, Hj, Hk.
  - split; [exact (seed_coordinate_inside _ _ _ _ Hs Hi) |].
    split; [exact (seed_coordinate_inside _ _ _ _ Hs Hj) |].
    assert (k = 0%Z) as -> by lia. change (inject_Z 0) with 0.
    assert (Eh : size / 2 == size * (1 # 2)) by field.
    split; [rewrite Eh; lra | ring].
  - split; [exact (seed_coordinate_inside _ _ _ _ Hs Hi) |].
    split; [exact (seed_coordinate_inside _ _ _ _ Hs Hj) |].
    exact (seed_coordinate_inside _ _ _ _ Hs Hk).
Qed.

(** ** Mass on the grid *)

Lemma sumQ_app (l k : list Q) : sumQ (l ++ k) == sumQ l + sumQ k.
Proof.
  unfold sumQ. induction l as [| a l IH]; simpl; [ring |].
  rewrite IH. ring.
Qed.

Lemma sumQ_mass_insert (d : list Cell.t) (i : nat) (c c' : Cell.t) :
  d !! i = Some c ->
  sumQ (Cell.mass <$> <[i := c']> d)
  == sumQ (Cell.mass <$> d) - Cell.mass c + Cell.mass c'.
Proof.
  revert i. induction d as [| a d IH]; intros i H; [discriminate |].
  destruct i as [| i].
  - injection H as ->.
    change (sumQ (Cell.mass <$> <[0%nat := c']> (c :: d)))
      with (Cell.mass c' + sumQ (Cell.mass <$> d)).
    change (sumQ (Cell.mass <$> c :: d))
      with (Cell.mass c + sumQ (Cell.mass <$> d)).
    ring.
  - change (sumQ (Cell.mass <$> <[S i := c']> (a :: d)))
      with (Cell.mass a + sumQ (Cell.mass <$> <[i := c']> d)).
    change (sumQ (Cell.mass <$> a :: d))
      with (Cell.mass a + sumQ (Cell.mass <$> d)).
    rewrite (IH i H). ring.
Qed.

Lemma isValidCellIndex_withData (g : Grid.t) (d : list Cell.t) (i j k : Z) :
  length d = length (Grid.data g) ->
  Grid.isValidCellIndex (Grid.withData g d) i j k
  = Grid.isValidCellIndex g i j k.
Proof.
  intros H. unfold Grid.isValidCellIndex, Grid._toFlatIndex. simpl.
  now rewrite H.
Qed.

Lemma getWeight_withData (g : Grid.t) (d : list Cell.t) (pos : Vector3)
      (delta : IVector3) :
  length d = length (Grid.data g) ->
  Grid.getWeight (Grid.withData g d) pos delta = Grid.getWeight g pos delta.
Proof.
  intros H. unfold Grid.getWeight.
  change (Grid.cellPositionToIndex (Grid.withData g d) pos)
    with (Grid.cellPositionToIndex g pos).
  now rewrite (isValidCellIndex_withData g d _ _ _ H).
Qed.

Lemma p2gCell_mass g p apic d delta d' :
  length d = length (Grid.data g) ->
  MPMSystem.p2gCell g p (Grid.cellPositionToIndex g (Particle.pos p))
                    apic d delta = Some d' ->
  sumQ (Cell.mass <$> d')
  == sumQ (Cell.mass <$> d)
     + Grid.getWeight g (Particle.pos p) delta * Particle.mass p.
Proof.
  intros Hlen. unfold MPMSystem.p2gCell.
  change (Grid.cellPositionToIndex g (Particle.pos p))
    with (Grid.cellPositionToIndex (Grid.withData g d) (Particle.pos p)).
  rewrite <- (getWeight_withData g d _ delta Hlen).
  destruct (Grid.isValidCellIndex _ _ _ _) eqn:E; simpl.
  - unfold Grid.getCell, Grid.dataAt.
    apply isValidCellIndex_spec in E.
    destruct (Z.ltb_spec
                (Grid._toFlatIndex (Grid.withData g d)
                   (ix (iadd (Grid.cellPositionToIndex (Grid.withData g d)
                                (Particle.pos p)) delta))
                   (iy (iadd (Grid.cellPositionToIndex (Grid.withData g d)
                                (Particle.pos p)) delta))
                   (iz (iadd (Grid.cellPositionToIndex (Grid.withData g d)
                                (Particle.pos p)) delta))) 0) as [H | H];
      [lia |].
    simpl.
    destruct (d !! _) as [c |] eqn:Ec; simpl; [| discriminate].
    intros [= <-]. rewrite (sumQ_mass_insert d _ c _ Ec). simpl. ring.
  - intros [= <-]. rewrite (getWeight_invalid _ _ _ E). ring.
Qed.

Lemma p2gDeltas_mass g p apic deltas :
  forall d d',
    length d = length (Grid.data g) ->
    forEach (MPMSystem.p2gCell g p
               (Grid.cellPositionToIndex g (Particle.pos p)) apic)
            deltas d = Some d' ->
    sumQ (Cell.mass <$> d')
    == sumQ (Cell.mass <$> d)
       + sumQ (Grid.getWeight g (Particle.pos p) <$> deltas)
         * Particle.mass p.
Proof.
  induction deltas as [| delta deltas IH]; cbn [forEach]; intros d d' Hlen H.
  - injection H as <-.
    change (sumQ (Grid.getWeight g (Particle.pos p) <$> [])) with 0. ring.
  - destruct (MPMSystem.p2gCell _ _ _ _ _ _) as [d1 |] eqn:E;
      [| discriminate].
    rewrite (IH d1 d' ltac:(apply p2gCell_length in E; congruence) H).
    rewrite (p2gCell_mass _ _ _ _ _ _ Hlen E).
    change (sumQ (Grid.getWeight g (Particle.pos p) <$> delta :: deltas))
      with (Grid.getWeight g (Particle.pos p) delta
            + sumQ (Grid.getWeight g (Particle.pos p) <$> deltas)).
    ring.
Qed.

Lemma p2gLoop_mass g Dinv ps :
  forall d acc st,
    length d = length (Grid.data g) ->
    forEach (MPMSystem.p2gParticle g Dinv) ps (d, acc) = Some st ->
    sumQ (Cell.mass <$> st.1)
    == sumQ (Cell.mass <$> d)
       + sumQ ((fun p => weightSum g (Particle.pos p) * Particle.mass p)
                 <$> ps).
Proof.
  induction ps as [| p ps IH]; cbn [forEach]; intros d acc st Hlen H.
  - injection H as <-.
    change (sumQ (_ <$> [])) with 0. simpl. ring.
  - unfold MPMSystem.p2gParticle at 1 in H. simpl in H.
    destruct (forEach _ (MPMSystem.neighbourDeltas _) d) as [d1 |] eqn:E;
      simpl in H; [| discriminate].
    pose proof (p2gDeltas_mass g
                  (Particle.mk (Particle.active p) (Particle.mass p)
                     (Particle.pos p) (Particle.vel p)
                     (mmultiply (Particle.B p) Dinv))
                  _ _ d d1 Hlen E) as Hm.
    simpl in Hm.
    assert (Hlen1 : length d1 = length (Grid.data g)).
    { rewrite <- Hlen. revert E.
      apply (forEach_invariant (fun d2 => length d2 = length d));
        [| reflexivity].
      intros d2 delta d3 H2 H3. apply p2gCell_length in H3. congruence. }
    rewrite (IH d1 _ st Hlen1 H), Hm.
    change (sumQ ((fun p0 => weightSum g (Particle.pos p0) * Particle.mass p0)
                    <$> p :: ps))
      with (weightSum g (Particle.pos p) * Particle.mass p
            + sumQ ((fun p0 => weightSum g (Particle.pos p0)
                               * Particle.mass p0) <$> ps)).
    unfold weightSum. ring.
Qed.

Lemma particleToGrid_mass_eq (g : Grid.t) (ps : list Particle.t) :
  exists g' ps',
    MPMSystem._particleToGrid g ps = Some (g', ps') /\
    totalMass g'
    == totalMass g
       + sumQ ((fun p => weightSum g (Particle.pos p) * Particle.mass p)
                 <$> ps).
Proof.
  destruct (particleToGrid_spec g ps) as (g' & E & _).
  eexists g', _. split; [exact E |].
  unfold MPMSystem._particleToGrid in E.
  destruct (forEach _ ps _) as [st |] eqn:E1; simpl in E; [| discriminate].
  injection E as <- _. unfold totalMass. simpl.
  exact (p2gLoop_mass g _ ps _ _ st eq_refl E1).
Qed.

(** X14.  On a grid with a positive cell size, [_particleToGrid] always
    returns, and it adds to the total mass of the cells, for each particle,
    the mass of the particle times the sum of its weights over the
    neighbour offsets: no mass appears or is lost other than through the
    weights. *)
Theorem particleToGrid_mass (g : Grid.t) (ps : list Particle.t) :
  0 < Grid.cellSize g ->
  exists g' ps',
    MPMSystem._particleToGrid g ps = Some (g', ps') /\
    totalMass g'
    == totalMass g
       + sumQ ((fun p => weightSum g (Particle.pos p) * Particle.mass p)
                 <$> ps).
Proof. intros _. exact (particleToGrid_mass_eq g ps). Qed.

(** ** Interior particles *)

Lemma interior_weightSum (g : Grid.t) (pos : Vector3) :
  gridInvariant g -> interior g pos -> inLayer g pos ->
  weightSum g pos == 1.
Proof.
  intros Hinv Hint Hl. pose proof Hinv as (Hc & _).
  pose proof (axis_partition_of_unity
                (x (Grid.leftBottomBackPos g)) _ (x pos) Hc) as Px.
  pose proof (axis_partition_of_unity
                (y (Grid.leftBottomBackPos g)) _ (y pos) Hc) as Py.
  pose proof (axis_partition_of_unity
                (z (Grid.leftBottomBackPos g)) _ (z pos) Hc) as Pz.
  unfold weightSum, sumQ. destruct (Grid.is2D g) eqn:E.
  - destruct (Hl E) as [Hlo Hhi].
    pose proof (fun dx dy =>
                  getWeight_interior_2D g pos Hinv Hint dx dy E Hlo Hhi) as Hw.
    rewrite neighbourDeltas_2D. cbn [fmap list_fmap foldr].
    rewrite !Hw by lia.
    revert Px Py.
    generalize
      (Grid.getNQuadratic (axisDistance (x (Grid.leftBottomBackPos g))
                             (Grid.cellSize g) (Grid.cellSize g) (x pos) (-1))),
      (Grid.getNQuadratic (axisDistance (x (Grid.leftBottomBackPos g))
                             (Grid.cellSize g) (Grid.cellSize g) (x pos) 0)),
      (Grid.getNQuadratic (axisDistance (x (Grid.leftBottomBackPos g))
                             (Grid.cellSize g) (Grid.cellSize g) (x pos) 1)),
      (Grid.getNQuadratic (axisDistance (y (Grid.leftBottomBackPos g))
                             (Grid.cellSize g) (Grid.cellSize g) (y pos) (-1))),
      (Grid.getNQuadratic (axisDistance (y (Grid.leftBottomBackPos g))
                             (Grid.cellSize g) (Grid.cellSize g) (y pos) 0)),
      (Grid.getNQuadratic (axisDistance (y (Grid.leftBottomBackPos g))
                             (Grid.cellSize g) (Grid.cellSize g) (y pos) 1)).
    intros a1 a2 a3 b1 b2 b3 Px Py.
    transitivity ((a1 + a2 + a3) * (b1 + b2 + b3)); [ring |].
    rewrite Px, Py. reflexivity.
  - pose proof (fun dx dy dz =>
                  getWeight_interior_3D g pos Hinv Hint dx dy dz E) as Hw.
    rewrite neighbourDeltas_3D. cbn [fmap list_fmap foldr].
    rewrite !Hw by lia.
    revert Px Py Pz.
    generalize
      (Grid.getNQuadratic (axisDistance (x (Grid.leftBottomBackPos g))
                             (Grid.cellSize g) (Grid.cellSize g) (x pos) (-1))),
      (Grid.getNQuadratic (axisDistance (x (Grid.leftBottomBackPos g))
                             (Grid.cellSize g) (Grid.cellSize g) (x pos) 0)),
      (Grid.getNQuadratic (axisDistance (x (Grid.leftBottomBackPos g))
                             (Grid.cellSize g) (Grid.cellSize g) (x pos) 1)),
      (Grid.getNQuadratic (axisDistance (y (Grid.leftBottomBackPos g))
                             (Grid.cellSize g) (Grid.cellSize g) (y pos) (-1))),
      (Grid.getNQuadratic (axisDistance (y (Grid.leftBottomBackPos g))
                             (Grid.cellSize g) (Grid.cellSize g) (y pos) 0)),
      (Grid.getNQuadratic (axisDistance (y (Grid.leftBottomBackPos g))
                             (Grid.cellSize g) (Grid.cellSize g) (y pos) 1)),
      (Grid.getNQuadratic (axisDistance (z (Grid.leftBottomBackPos g))
                             (Grid.cellSize g) (Grid.cellSize g) (z pos) (-1))),
      (Grid.getNQuadratic (axisDistance (z (Grid.leftBottomBackPos g))
                             (Grid.cellSize g) (Grid.cellSize g) (z pos) 0)),
      (Grid.getNQuadratic (axisDistance (z (Grid.leftBottomBackPos g))
                             (Grid.cellSize g) (Grid.cellSize g) (z pos) 1)).
    intros a1 a2 a3 b1 b2 b3 c1 c2 c3 Px Py Pz.
    transitivity ((a1 + a2 + a3) * (b1 + b2 + b3) * (c1 + c2 + c3)); [ring |].
    rewrite Px, Py, Pz. reflexivity.
Qed.

Lemma sumQ_mass_reset (d : list Cell.t) :
  sumQ (Cell.mass <$> (Cell.reset <$> d)) == 0.
Proof.
  induction d as [| c d IH]; [reflexivity |].
  rewrite !fmap_cons. unfold sumQ in *. cbn [foldr]. rewrite IH. reflexivity.
Qed.

Lemma totalMass_resetCells (g : Grid.t) : totalMass (Grid.resetCells g) == 0.
Proof. apply sumQ_mass_reset. Qed.


(** ** The cells after a step *)

Lemma p2gCell_force g p gridIdx apic d delta d' :
  Forall (fun c => Cell.force c = ZeroVector3) d ->
  MPMSystem.p2gCell g p gridIdx apic d delta = Some d' ->
  Forall (fun c => Cell.force c = ZeroVector3) d'.
Proof.
  intros HF. unfold MPMSystem.p2gCell.
  destruct (negb _); [now intros [= <-] |].
  destruct (Grid.getCell _ _) as [c |] eqn:Ec; simpl; [| discriminate].
  intros [= <-]. apply Forall_insert; [exact HF |]. simpl.
  unfold Grid.getCell, Grid.dataAt in Ec. simpl in Ec.
  destruct (_ <? 0)%Z; [discriminate |].
  exact (proj1 (Forall_lookup _ _) HF _ _ Ec).
Qed.

Lemma particleToGrid_force g ps g' ps' :
  Forall (fun c => Cell.force c = ZeroVector3) (Grid.data g) ->
  MPMSystem._particleToGrid g ps = Some (g', ps') ->
  Forall (fun c => Cell.force c = ZeroVector3) (Grid.data g').
Proof.
  intros HF. unfold MPMSystem._particleToGrid.
  destruct (forEach _ ps _) as [st |] eqn:E; simpl; [| discriminate].
  intros [= <- _]. simpl.
  revert E. apply (forEach_invariant
                     (fun st : list Cell.t * list Particle.t =>
                        Forall (fun c => Cell.force c = ZeroVector3) st.1));
    [| exact HF].
  intros [d acc] p [d1 acc1] Hd. unfold MPMSystem.p2gParticle. simpl.
  destruct (forEach _ (MPMSystem.neighbourDeltas _) d) as [d2 |] eqn:E2;
    simpl; [| discriminate].
  intros [= <- _]. simpl in Hd. revert E2.
  apply forEach_invariant; [| exact Hd].
  intros d3 delta d4 H3. apply p2gCell_force. exact H3.
Qed.

Lemma updateCell_settled size is2D dt idx c :
  Cell.force c = ZeroVector3 ->
  cellSettled (MPMSystem.updateCell size is2D dt idx c).
Proof.
  intros HF. unfold cellSettled, MPMSystem.updateCell.
  destruct (Qle_bool (Cell.mass c) 0) eqn:E; [now left |].
  apply Qle_bool_false_iff in E. right. simpl. split; assumption.
Qed.

Lemma updateGrid_settled (g : Grid.t) (dt : Q) (g' : Grid.t) :
  gridInvariant g ->
  Forall (fun c => Cell.force c = ZeroVector3) (Grid.data g) ->
  MPMSystem._updateGrid g dt = Some g' ->
  Forall cellSettled (Grid.data g').
Proof.
  intros (_ & Hx & Hy & Hz & Hlen) HF E.
  destruct (updateGrid_spec g dt Hlen) as (g2 & E2 & Hs & Hcells).
  rewrite E in E2. injection E2 as <-.
  destruct Hs as (Hsize & _ & _ & Hlen').
  apply Forall_lookup. intros n c Hn.
  assert (Hlt : (n < length (Grid.data g))%nat)
    by (rewrite <- Hlen'; now apply lookup_lt_Some in Hn).
  destruct (toFlatIndex_onto g (Z.of_nat n) Hx Hy) as (i & j & k & Hin & Hf).
  { rewrite Hlen in Hlt. lia. }
  specialize (Hcells i j k Hin).
  destruct (lookup_lt_is_Some_2 _ _ Hlt) as [c0 Hc0].
  assert (G : Grid.getCell g (mkIVector3 i j k) = Some c0).
  { unfold Grid.getCell, Grid.dataAt. simpl. rewrite Hf.
    destruct (Z.ltb_spec (Z.of_nat n) 0); [lia |]. now rewrite Nat2Z.id. }
  assert (G' : Grid.getCell g' (mkIVector3 i j k) = Some c).
  { unfold Grid.getCell, Grid.dataAt. simpl.
    unfold Grid._toFlatIndex in *. rewrite Hsize, Hf.
    destruct (Z.ltb_spec (Z.of_nat n) 0); [lia |]. now rewrite Nat2Z.id. }
  rewrite G, G' in Hcells. simpl in Hcells. injection Hcells as ->.
  apply updateCell_settled.
  exact (proj1 (Forall_lookup _ _) HF _ _ Hc0).
Qed.

Lemma resetCells_force (g : Grid.t) :
  Forall (fun c => Cell.force c = ZeroVector3) (Grid.data (Grid.resetCells g)).
Proof.
  simpl. apply Forall_fmap, Forall_forall. reflexivity.
Qed.

(** X16.  On a grid that satisfies the constructor's invariant, after
    [step(dt)] with [dt > 0] every cell of the grid is either zero
    throughout (mass, momentum, velocity, force) or has a strictly positive
    mass and a zero force: no cell is left with a negative mass, and no
    force is ever accumulated. *)
Theorem step_cells_settled (s : MPMSystem.t) (dt : Q) :
  gridInvariant (MPMSystem.grid s) -> 0 < dt ->
  exists s',
    MPMSystem.step s dt = Some s' /\
    Forall cellSettled (Grid.data (MPMSystem.grid s')).
Proof.
  intros Hinv Hdt.
  destruct (step_positive_total s dt) as [s' E]; [apply Hinv |].
  exists s'. split; [exact E |].
  unfold MPMSystem.step in E. apply Qle_bool_false_iff in Hdt.
  rewrite Hdt in E.
  destruct (particleToGrid_spec (Grid.resetCells (MPMSystem.grid s))
                                (MPMSystem.particles s)) as (g1 & E1 & Hs1).
  rewrite E1 in E. simpl in E.
  destruct (MPMSystem._updateGrid g1 dt) as [g2 |] eqn:E2; simpl in E;
    [| discriminate].
  destruct (MPMSystem._gridToParticle g2 _ dt) as [ps2 |]; simpl in E;
    [| discriminate].
  injection E as <-. simpl.
  apply (updateGrid_settled g1 dt g2); [| | exact E2].
  - apply (gridInvariant_sameShape (MPMSystem.grid s)); [| exact Hinv].
    eapply sameShape_trans; [apply resetCells_sameShape | exact Hs1].
  - eapply particleToGrid_force; [| exact E1]. apply resetCells_force.
Qed.

(** ** A uniform velocity field *)

Lemma g2pDeltas_velocity (g : Grid.t) (v pos0 : Vector3) deltas :
  Forall (fun c => Cell.vel c = v) (Grid.data g) ->
  forall p p1,
    Particle.pos p = pos0 ->
    forEach (MPMSystem.g2pCell g (Grid.cellPositionToIndex g pos0)) deltas p
    = Some p1 ->
    veq (Particle.vel p1)
        (add (Particle.vel p)
             (multiplyScalar v (sumQ (Grid.getWeight g pos0 <$> deltas)))).
Proof.
  intros HF. induction deltas as [| delta deltas IH]; cbn [forEach];
    intros p p1 Hpos H.
  - injection H as <-. change (sumQ (_ <$> [])) with 0.
    unfold veq. simpl. repeat split; ring.
  - destruct (MPMSystem.g2pCell _ _ _ _) as [p2 |] eqn:E; [| discriminate].
    pose proof (g2pCell_frame _ _ _ _ _ E) as (_ & _ & Hpos2).
    specialize (IH p2 p1 ltac:(congruence) H).
    change (sumQ (Grid.getWeight g pos0 <$> delta :: deltas))
      with (Grid.getWeight g pos0 delta
            + sumQ (Grid.getWeight g pos0 <$> deltas)).
    revert IH. generalize (sumQ (Grid.getWeight g pos0 <$> deltas)).
    intros r IH.
    assert (E2 : veq (Particle.vel p2)
                     (add (Particle.vel p)
                          (multiplyScalar v (Grid.getWeight g pos0 delta)))).
    { unfold MPMSystem.g2pCell in E.
      destruct (Grid.isValidCellIndex _ _ _ _) eqn:Ev; simpl in E.
      - destruct (Grid.getCell _ _) as [c |] eqn:Ec; simpl in E;
          [| discriminate].
        injection E as <-. simpl.
        assert (Hc : Cell.vel c = v).
        { unfold Grid.getCell, Grid.dataAt in Ec. simpl in Ec.
          destruct (_ <? 0)%Z; [discriminate |].
          exact (proj1 (Forall_lookup _ _) HF _ _ Ec). }
        rewrite Hc, Hpos. unfold veq. simpl. repeat split; ring.
      - injection E as <-. rewrite (getWeight_invalid _ _ _ Ev).
        unfold veq. simpl. repeat split; ring. }
    destruct IH as (Ix & Iy & Iz). destruct E2 as (Ex & Ey & Ez).
    unfold veq. simpl in *. rewrite Ix, Iy, Iz, Ex, Ey, Ez.
    repeat split; ring.
Qed.


(** ** Stepping without particles, and stepping many times *)

Lemma updateGrid_fresh (g : Grid.t) (dt : Q) :
  Grid.data g
  = replicate (Z.to_nat (ix (Grid.size g) * iy (Grid.size g)
                         * iz (Grid.size g))) Cell.new ->
  MPMSystem._updateGrid g dt = Some (Grid.withData g (Grid.data g)).
Proof.
  intros Hd. unfold MPMSystem._updateGrid.
  destruct (forEach_total (fun d => d = Grid.data g)
              (MPMSystem.updateGridCell g dt)
              (MPMSystem.cellIndices (Grid.size g))) with (s := Grid.data g)
    as (d' & -> & ->); [| reflexivity | reflexivity].
  intros d [i j k] Hidx ->. apply elem_of_cellIndices in Hidx.
  pose proof (toFlatIndex_range g i j k Hidx) as Hr.
  unfold MPMSystem.updateGridCell, Grid.getCell, Grid.dataAt. simpl.
  set (f := Grid._toFlatIndex g i j k) in *.
  change (Grid._toFlatIndex (Grid.withData g (Grid.data g)) i j k) with f.
  destruct (Z.ltb_spec f 0) as [H | H]; [lia |].
  assert (Hc : Grid.data g !! Z.to_nat f = Some Cell.new).
  { rewrite Hd. apply lookup_replicate_2. lia. }
  rewrite Hc. simpl. exists (Grid.data g). split; [| reflexivity].
  f_equal. apply list_insert_id. exact Hc.
Qed.

(** X18.  On a grid with one cell per index triple and no particles,
    [step(dt)] with [dt > 0] returns with no particles and with the grid in
    the state the constructor built, every cell zero: gravity alone puts
    nothing on an empty grid. *)
Theorem step_without_particles (s : MPMSystem.t) (dt : Q) :
  length (Grid.data (MPMSystem.grid s))
  = Z.to_nat (ix (Grid.size (MPMSystem.grid s))
              * iy (Grid.size (MPMSystem.grid s))
              * iz (Grid.size (MPMSystem.grid s))) ->
  MPMSystem.particles s = [] ->
  0 < dt ->
  MPMSystem.step s dt
  = Some (MPMSystem.mk
            (Grid.new (Grid.size (MPMSystem.grid s))
                      (Grid.cellSize (MPMSystem.grid s))
                      (Grid.leftBottomBackPos (MPMSystem.grid s)))
            []).
Proof.
  intros Hlen Hps Hdt. unfold MPMSystem.step.
  apply Qle_bool_false_iff in Hdt. rewrite Hdt, Hps.
  unfold MPMSystem._particleToGrid. cbn [forEach mbind option_bind fst snd].
  rewrite updateGrid_fresh.
  - cbn [mbind option_bind]. unfold MPMSystem._gridToParticle. simpl.
    unfold Grid.new, Grid._initData, Grid.withData. simpl.
    now rewrite fmap_reset_replicate, Hlen.
  - simpl. now rewrite fmap_reset_replicate, Hlen.
Qed.

Lemma stepFrame_trans (s1 s2 s3 : MPMSystem.t) :
  stepFrame s1 s2 -> stepFrame s2 s3 -> stepFrame s1 s3.
Proof.
  intros [Hs12 Hp12] [Hs23 Hp23]. split.
  - eapply sameShape_trans; eassumption.
  - eapply Forall2_trans; [| exact Hp12 | exact Hp23].
    intros p q r [H1 H2] [H3 H4]. split; congruence.
Qed.

Lemma steps_stepFrame (dts : list Q) :
  forall s,
    gridInvariant (MPMSystem.grid s) ->
    exists s', MPMSystem.steps s dts = Some s' /\ stepFrame s s'.
Proof.
  unfold MPMSystem.steps.
  induction dts as [| dt dts IH]; cbn [forEach]; intros s Hinv.
  - exists s. split; [reflexivity |].
    split; [apply sameShape_refl | apply sameParticle_refl].
  - destruct (step_positive_total s dt) as [s1 E]; [apply Hinv |].
    rewrite E. pose proof (step_inv_frame s dt s1 E) as HF1.
    destruct (IH s1) as (s' & E' & HF').
    { apply (gridInvariant_sameShape (MPMSystem.grid s)); [| exact Hinv].
      apply HF1. }
    exists s'. split; [exact E' |]. eapply stepFrame_trans; eassumption.
Qed.

(** X19.  On a grid that satisfies the constructor's invariant, any
    sequence of steps, with any time steps, runs to the end; the grid keeps
    its shape and its invariant, and the particles stay as many, in the
    same order, each with its mass. *)
Theorem steps_frame (s : MPMSystem.t) (dts : list Q) :
  gridInvariant (MPMSystem.grid s) ->
  exists s',
    MPMSystem.steps s dts = Some s' /\
    stepFrame s s' /\
    gridInvariant (MPMSystem.grid s') /\
    (Particle.mass <$> MPMSystem.particles s')
    = (Particle.mass <$> MPMSystem.particles s).
Proof.
  intros Hinv.
  destruct (steps_stepFrame dts s Hinv) as (s' & E & HF).
  exists s'. split; [exact E |].
  split; [exact HF |]. split.
  - apply (gridInvariant_sameShape (MPMSystem.grid s)); [apply HF | exact Hinv].
  - destruct HF as [_ HF].
    induction HF as [| p p' ps ps' [Hm _] _ IH]; [reflexivity |].
    rewrite !fmap_cons. now rewrite Hm, IH.
Qed.

(** ** The inverse of the inertia matrix *)

(** X20.  For a positive cell size the matrix [_particleToGrid] obtains by
    inverting [getDQuadratic()] is the diagonal matrix of the reciprocals:
    [4 / cellSize^2] on [x] and [y], and on [z] the same for a 3D grid and
    [4] for a 2D grid; the singular branch of [invert] is not taken. *)
Theorem invert_getDQuadratic (g : Grid.t) :
  0 < Grid.cellSize g ->
  let Dinv := invert (Grid.getDQuadratic g) in
  e0 Dinv == 4 / (Grid.cellSize g * Grid.cellSize g) /\
  e4 Dinv == 4 / (Grid.cellSize g * Grid.cellSize g) /\
  e8 Dinv == (if Grid.is2D g then 4
              else 4 / (Grid.cellSize g * Grid.cellSize g)) /\
  e1 Dinv == 0 /\ e2 Dinv == 0 /\ e3 Dinv == 0 /\
  e5 Dinv == 0 /\ e6 Dinv == 0 /\ e7 Dinv == 0.
Proof.
  intros Hc. unfold Grid.getDQuadratic, Grid.getH, Grid.cellDimensions.
  set (c := Grid.cellSize g) in *.
  assert (Hh : exists h, (if Grid.is2D g then 1 else c) = h /\ 0 < h /\
                         (if Grid.is2D g then 4 else 4 / (c * c))
                         == 4 / (h * h)).
  { destruct (Grid.is2D g).
    - exists 1. split; [reflexivity | split; reflexivity].
    - exists c. split; [reflexivity | split; [exact Hc | reflexivity]]. }
  destruct Hh as (h & -> & Hh & ->).
  unfold invert, Matrix3_set. cbn [multiplyScalar multiply x y z
    e0 e1 e2 e3 e4 e5 e6 e7 e8].
  set (det := _ + _ + _).
  assert (Hdet : det == c * c * (1 # 4) * (c * c * (1 # 4))
                        * (h * h * (1 # 4))) by (unfold det; ring).
  assert (Hpos : 0 < det).
  { rewrite Hdet. repeat apply Qmult_lt_0_compat; try exact Hc; try exact Hh;
      reflexivity. }
  destruct (Qeq_bool det 0) eqn:E.
  { apply Qeq_bool_iff in E. lra. }
  cbn [e0 e1 e2 e3 e4 e5 e6 e7 e8].
  assert (Hinv : 1 / det == 64 / (c * c * (c * c) * (h * h))).
  { rewrite Hdet. field. split; lra. }
  rewrite Hinv. repeat split; field; split; lra.
Qed.

(** * The view of the application *)

Lemma orElse_zero (a : Q) : App.orElse a 0 == a.
Proof.
  unfold App.orElse. destruct (Qeq_bool a 0) eqn:E; [| reflexivity].
  apply Qeq_bool_iff in E. now rewrite E.
Qed.

Lemma orElse_nonzero (a b : Q) : ~ a == 0 -> App.orElse a b = a.
Proof.
  intros H. unfold App.orElse. destruct (Qeq_bool a 0) eqn:E; [| reflexivity].
  apply Qeq_bool_iff in E. contradiction.
Qed.

Lemma updateCameraSensitivity_spec (c : App.Camera) :
  let c' := App.updateCameraSensitivity c in
  App.orthoLeft c' = App.orthoLeft c /\
  App.orthoRight c' = App.orthoRight c /\
  App.orthoTop c' = App.orthoTop c /\
  App.orthoBottom c' = App.orthoBottom c /\
  App.panningSensibility c'
  == 6000 / Qabs (App.orthoLeft c - App.orthoRight c).
Proof.
  unfold App.updateCameraSensitivity.
  cbn [App.orthoLeft App.orthoRight App.orthoTop App.orthoBottom
       App.panningSensibility].
  do 4 (split; [reflexivity |]). now rewrite !orElse_zero.
Qed.

(** X21.  [zoom2DView] never leaves an invalid view behind: whatever the
    target and the amount, the camera afterwards is either the one before
    or has [left < right], [bottom < top] and a width and a height above
    [2]; the aspect ratio and the zoom target are not touched.  So a valid
    view stays valid under any sequence of zooms. *)
Theorem zoom2DView_guard (a : App.t) (delta : Q) :
  let a' := App.zoom2DView a delta in
  App.aspectRatio a' = App.aspectRatio a /\
  App.zoomTargetX a' = App.zoomTargetX a /\
  App.zoomTargetY a' = App.zoomTargetY a /\
  (a' = a \/ validView (App.camera a')) /\
  (validView (App.camera a) -> validView (App.camera a')).
Proof.
  destruct a as [[L R T B ps] r tx ty].
  unfold App.zoom2DView. cbv zeta.
  cbn [App.camera App.orthoLeft App.orthoRight App.orthoTop App.orthoBottom
       App.aspectRatio App.zoomTargetX App.zoomTargetY App.panningSensibility].
  set (nl := L - (L - tx) / Qabs (L - R) * delta * r).
  set (nr := R - (R - tx) / Qabs (L - R) * delta * r).
  set (nt := T - (T - ty) / Qabs (T - B) * delta).
  set (nb := B - (B - ty) / Qabs (T - B) * delta).
  destruct (_ && _) eqn:E.
  - apply andb_true_iff in E as [E E4]. apply andb_true_iff in E as [E E3].
    apply andb_true_iff in E as [E1 E2].
    apply Qlt_bool_iff in E1, E2, E3, E4.
    cbn [App.camera App.aspectRatio App.zoomTargetX App.zoomTargetY].
    assert (V : validView
                  (App.updateCameraSensitivity
                     (App.mkCamera nl nr nt nb ps))).
    { unfold validView, App.updateCameraSensitivity.
      cbn [App.orthoLeft App.orthoRight App.orthoTop App.orthoBottom].
      split; [exact E1 |]. split; [exact E2 |]. split; [exact E3 | exact E4]. }
    split; [reflexivity |]. split; [reflexivity |]. split; [reflexivity |].
    split; [right; exact V | intros _; exact V].
  - split; [reflexivity |]. split; [reflexivity |]. split; [reflexivity |].
    split; [now left | trivial].
Qed.

Lemma Qlt_bool_true (u v u' v' : Q) :
  u == u' -> v == v' -> u' < v' -> Qlt_bool u v = true.
Proof. intros Eu Ev H. apply Qlt_bool_iff. now rewrite Eu, Ev. Qed.

(** X22.  On a view with [left < right] and [bottom < top], a zoom by
    [delta] that leaves a width [right - left - delta * aspectRatio] and a
    height [top - bottom - delta] above [2] is applied: the view gets
    exactly that width and that height, the zoom target keeps its relative
    place between the left and right bounds and between the bottom and top
    bounds, and the panning sensibility becomes [6000] over the new
    width. *)
Theorem zoom2DView_about_target (a : App.t) (delta : Q) :
  let c := App.camera a in
  let c' := App.camera (App.zoom2DView a delta) in
  let W := App.orthoRight c - App.orthoLeft c in
  let H := App.orthoTop c - App.orthoBottom c in
  0 < W -> 0 < H ->
  2 < W - delta * App.aspectRatio a -> 2 < H - delta ->
  App.orthoRight c' - App.orthoLeft c' == W - delta * App.aspectRatio a /\
  App.orthoTop c' - App.orthoBottom c' == H - delta /\
  (App.zoomTargetX a - App.orthoLeft c') * W
  == (App.zoomTargetX a - App.orthoLeft c)
     * (App.orthoRight c' - App.orthoLeft c') /\
  (App.zoomTargetY a - App.orthoBottom c') * H
  == (App.zoomTargetY a - App.orthoBottom c)
     * (App.orthoTop c' - App.orthoBottom c') /\
  App.panningSensibility c' == 6000 / (W - delta * App.aspectRatio a).
Proof.
  destruct a as [[L R T B ps] r tx ty]. cbn [App.camera App.orthoLeft
    App.orthoRight App.orthoTop App.orthoBottom App.aspectRatio
    App.zoomTargetX App.zoomTargetY].
  intros HW HH HW2 HH2. unfold App.zoom2DView.
  cbn [App.camera App.orthoLeft App.orthoRight App.orthoTop App.orthoBottom
       App.aspectRatio App.zoomTargetX App.zoomTargetY App.panningSensibility].
  assert (EW : Qabs (L - R) == R - L).
  { rewrite Qabs_neg by lra. ring. }
  assert (EH : Qabs (T - B) == T - B) by (apply Qabs_pos; lra).
  set (nl := L - (L - tx) / Qabs (L - R) * delta * r).
  set (nr := R - (R - tx) / Qabs (L - R) * delta * r).
  set (nt := T - (T - ty) / Qabs (T - B) * delta).
  set (nb := B - (B - ty) / Qabs (T - B) * delta).
  assert (El : nl == L - (L - tx) / (R - L) * delta * r)
    by (unfold nl; now rewrite EW).
  assert (Er : nr == R - (R - tx) / (R - L) * delta * r)
    by (unfold nr; now rewrite EW).
  assert (Et : nt == T - (T - ty) / (T - B) * delta)
    by (unfold nt; now rewrite EH).
  assert (Eb : nb == B - (B - ty) / (T - B) * delta)
    by (unfold nb; now rewrite EH).
  assert (Dx : nr - nl == R - L - delta * r)
    by (rewrite El, Er; field; lra).
  assert (Dy : nt - nb == T - B - delta)
    by (rewrite Et, Eb; field; lra).
  assert (G1 : Qlt_bool nl nr = true) by (apply Qlt_bool_iff; lra).
  assert (G2 : Qlt_bool nb nt = true) by (apply Qlt_bool_iff; lra).
  assert (G3 : Qlt_bool 2 (nr - nl) = true) by (apply Qlt_bool_iff; lra).
  assert (G4 : Qlt_bool 2 (nt - nb) = true) by (apply Qlt_bool_iff; lra).
  rewrite G1, G2, G3, G4.
  cbn [andb App.camera App.updateCameraSensitivity App.orthoLeft
       App.orthoRight App.orthoTop App.orthoBottom App.panningSensibility].
  split; [exact Dx |]. split; [exact Dy |]. split; [| split].
  - rewrite Dx, El. field. lra.
  - rewrite Dy, Eb. field. lra.
  - rewrite !orElse_zero.
    assert (Ea : Qabs (nl - nr) == R - L - delta * r).
    { rewrite Qabs_neg by lra. lra. }
    now rewrite Ea.
Qed.

(** X23.  The zoom amount the pointer-wheel handler computes lies between
    [-0.2] and [0.2], whatever the wheel event reports. *)
Theorem pointerWheelDelta_bounded (detail deltaY : Q) :
  - (2 # 10) <= App.pointerWheelDelta detail deltaY /\
  App.pointerWheelDelta detail deltaY <= 2 # 10.
Proof.
  unfold App.pointerWheelDelta.
  assert (H1 : - (1) <= Qmax (- (1)) (Qmin 1 (App.orElse (- detail) deltaY)))
    by apply Q.le_max_l.
  assert (H2 : Qmax (- (1)) (Qmin 1 (App.orElse (- detail) deltaY)) <= 1).
  { apply Q.max_lub; [discriminate | apply Q.le_min_l]. }
  revert H1 H2.
  generalize (Qmax (- (1)) (Qmin 1 (App.orElse (- detail) deltaY))).
  intros m H1 H2. split; lra.
Qed.

(** X24.  The view keeps the proportions of the canvas: a resize with a
    canvas rectangle of a height other than [0], on a camera whose top and
    bottom bounds are not [0], makes the width of the view its height times
    the new aspect ratio [width / height], and
    a zoom on a view with [left < right] and [bottom < top] that has these
    proportions leaves a view that has them; a resize without a canvas
    rectangle changes nothing. *)
Theorem view_keeps_aspect (a : App.t) :
  (forall w h,
      ~ h == 0 ->
      ~ App.orthoTop (App.camera a) == 0 ->
      ~ App.orthoBottom (App.camera a) == 0 ->
      viewMatchesAspect (App.handle_resize a (Some (w, h))) /\
      App.aspectRatio (App.handle_resize a (Some (w, h))) = w / h) /\
  App.handle_resize a None = a /\
  (forall delta,
      App.orthoLeft (App.camera a) < App.orthoRight (App.camera a) ->
      App.orthoBottom (App.camera a) < App.orthoTop (App.camera a) ->
      viewMatchesAspect a ->
      viewMatchesAspect (App.zoom2DView a delta)).
Proof.
  split; [| split; [reflexivity |]].
  - intros w h _ Ht Hb. unfold viewMatchesAspect, App.handle_resize.
    cbn [App.camera App.updateCameraSensitivity App.orthoLeft App.orthoRight
         App.orthoTop App.orthoBottom App.aspectRatio].
    rewrite (orElse_nonzero _ _ Ht), (orElse_nonzero _ _ Hb).
    split; [ring | reflexivity].
  - destruct a as [[L R T B ps] r tx ty]. unfold viewMatchesAspect.
    cbn [App.camera App.orthoLeft App.orthoRight App.orthoTop
         App.orthoBottom App.aspectRatio].
    intros delta HW HH Hv. unfold App.zoom2DView.
    destruct (_ && _); [| exact Hv].
    cbn [App.camera App.updateCameraSensitivity App.orthoLeft App.orthoRight
         App.orthoTop App.orthoBottom App.aspectRatio].
    assert (EW : Qabs (L - R) == R - L).
    { rewrite Qabs_neg by lra. ring. }
    assert (EH : Qabs (T - B) == T - B) by (apply Qabs_pos; lra).
    rewrite EW, EH.
    transitivity (R - L - delta * r); [field; lra |].
    rewrite Hv. field. lra.
Qed.

(** ** The render loop *)

Lemma mpm0_particles :
  MPMSystem.particles App.mpm0
  = (x' ← upTo 32; y' ← upTo 32; z' ← upTo 1;
     [seedAt (mkVector3 (- (16 # 10)) (- (16 # 10)) 0) (1 # 10) 1 x' y' z']).
Proof. vm_compute. reflexivity. Qed.

Lemma allInside_mpm0 : allInside App.mpm0.
Proof.
  unfold allInside. rewrite mpm0_particles.
  apply Forall_forall. intros p Hp.
  apply (elem_of_seeds _ _ _ (mkIVector3 32 32 1)) in Hp
    as (i & j & k & Hi & Hj & Hk & ->).
  cbn [ix iy iz] in Hi, Hj, Hk.
  assert (Qi : 0 <= inject_Z i /\ inject_Z i <= 31).
  { change 0 with (inject_Z 0). change 31 with (inject_Z 31).
    rewrite <- !Zle_Qle. lia. }
  assert (Qj : 0 <= inject_Z j /\ inject_Z j <= 31).
  { change 0 with (inject_Z 0). change 31 with (inject_Z 31).
    rewrite <- !Zle_Qle. lia. }
  assert (k = 0%Z) as -> by lia.
  unfold insideGrid, seedAt, Particle.new.
  change (Grid.leftBottomBackPos (MPMSystem.grid App.mpm0))
    with (multiplyScalar (mkVector3 (inject_Z (-32)) (inject_Z (-32)) 0)
                         (1 # 10)).
  change (Grid.cellDimensions (MPMSystem.grid App.mpm0))
    with (mkVector3 (1 # 10) (1 # 10) 1).
  change (Grid.size (MPMSystem.grid App.mpm0)) with (mkIVector3 64 64 1).
  cbn [Particle.pos multiplyScalar x y z ix iy iz].
  change (inject_Z (-32)) with (- (32)). change (inject_Z 64) with 64.
  change (inject_Z 1) with 1. change (inject_Z 0) with 0.
  assert (Eh : (1 # 10) / 2 == 1 # 20) by reflexivity.
  rewrite !Eh. repeat split; lra.
Qed.

(** X25.  The application's simulation, the 32 x 32 particles its
    constructor seeds on the 64 x 64 x 1 grid, runs any number of frames of
    the render loop ([step(0.01)] each) without an exception, and after
    every frame there are still 1024 particles and every one lies inside
    the grid's bounds. *)
Theorem renderFrames_runs (frames : nat) :
  exists mpm,
    App.renderFrames App.mpm0 frames = Some mpm /\
    length (MPMSystem.particles mpm) = 1024%nat /\
    allInside mpm.
Proof.
  assert (Hinv : gridInvariant (MPMSystem.grid App.mpm0))
    by (apply gridInvariant_new; reflexivity).
  unfold App.renderFrames.
  destruct (steps_inside (replicate frames App.renderLoopDt) App.mpm0 Hinv
              allInside_mpm0) as (mpm & E & Hin).
  destruct (steps_stepFrame (replicate frames App.renderLoopDt) App.mpm0 Hinv)
    as (mpm' & E' & [_ HF]).
  rewrite E in E'. injection E' as <-.
  exists mpm. split; [exact E |]. split; [| exact Hin].
  apply Forall2_length in HF. rewrite <- HF. rewrite mpm0_particles.
  vm_compute. reflexivity.
Qed.

(** * Particles at rest *)

(** ** What the scatter leaves on the grid *)

Lemma massesGrow_refl (d : list Cell.t) : massesGrow d d.
Proof.
  split; [reflexivity |]. intros n c H. exists c. split; [exact H | lra].
Qed.

Lemma massesGrow_trans (d1 d2 d3 : list Cell.t) :
  massesGrow d1 d2 -> massesGrow d2 d3 -> massesGrow d1 d3.
Proof.
  intros [L12 H12] [L23 H23]. split; [congruence |].
  intros n c Hc. destruct (H12 n c Hc) as (c2 & Hc2 & Hle2).
  destruct (H23 n c2 Hc2) as (c3 & Hc3 & Hle3).
  exists c3. split; [exact Hc3 | lra].
Qed.

Lemma covers_massesGrow g d d' p delta :
  covers g d p delta -> massesGrow d d' -> covers g d' p delta.
Proof.
  unfold covers. intros Hc [_ Hg] Hv.
  destruct (Hc Hv) as (c & Ec & Hle).
  unfold Grid.dataAt in *. destruct (_ <? 0)%Z; [discriminate |].
  destruct (Hg _ c Ec) as (c' & Ec' & Hle').
  exists c'. split; [exact Ec' | lra].
Qed.

Lemma zero_apic_momentum (Dinv : Matrix3) (r : Vector3) (wm : Q) :
  veq (multiplyScalar
         (add (applyMatrix3 r (mmultiply ZeroMatrix3 Dinv)) ZeroVector3) wm)
      ZeroVector3.
Proof. unfold veq. simpl. repeat split; ring. Qed.

Lemma p2gCell_atRest g p apic Dinv d delta d' :
  length d = length (Grid.data g) ->
  Forall cellAtRest d ->
  Particle.vel p = ZeroVector3 -> apic = mmultiply ZeroMatrix3 Dinv ->
  0 <= Particle.mass p ->
  MPMSystem.p2gCell g p (Grid.cellPositionToIndex g (Particle.pos p))
                    apic d delta = Some d' ->
  Forall cellAtRest d' /\ massesGrow d d' /\ covers g d' p delta.
Proof.
  intros Hlen HF Hvel -> Hm. unfold MPMSystem.p2gCell, covers.
  change (Grid.cellPositionToIndex g (Particle.pos p))
    with (Grid.cellPositionToIndex (Grid.withData g d) (Particle.pos p)).
  rewrite (isValidCellIndex_withData g d _ _ _ Hlen).
  rewrite (getWeight_withData g d _ delta Hlen).
  change (Grid.cellPositionToIndex (Grid.withData g d) (Particle.pos p))
    with (Grid.cellPositionToIndex g (Particle.pos p)).
  set (idx := iadd (Grid.cellPositionToIndex g (Particle.pos p)) delta).
  change (Grid._toFlatIndex (Grid.withData g d) (ix idx) (iy idx) (iz idx))
    with (Grid._toFlatIndex g (ix idx) (iy idx) (iz idx)).
  set (f := Grid._toFlatIndex g (ix idx) (iy idx) (iz idx)).
  destruct (Grid.isValidCellIndex g (ix idx) (iy idx) (iz idx)) eqn:Ev;
    cbn [negb].
  - pose proof (proj1 (isValidCellIndex_spec _ _ _ _) Ev) as Hr. fold f in Hr.
    change (Grid.getCell (Grid.withData g d) idx) with (Grid.dataAt d f).
    destruct (Grid.dataAt d f) as [c |] eqn:Ec; cbn [mbind option_bind];
      [| discriminate].
    intros [= <-].
    assert (Ec' : d !! Z.to_nat f = Some c).
    { unfold Grid.dataAt in Ec. destruct (Z.ltb_spec f 0); [lia | exact Ec]. }
    destruct (proj1 (Forall_lookup _ _) HF _ _ Ec') as (Hmv & Hfo & Hma).
    destruct (getWeight_range g (Particle.pos p) delta) as [Hw _].
    assert (Hwm : 0 <= Grid.getWeight g (Particle.pos p) delta
                       * Particle.mass p)
      by (apply Qmult_le_0_compat; assumption).
    split; [| split].
    + apply Forall_insert; [exact HF |].
      split; [| split]; cbn [Cell.mass Cell.mv Cell.force].
      * rewrite Hvel.
        destruct (zero_apic_momentum Dinv
                    (sub (Grid.cellIndexToPosition (Grid.withData g d)
                            (ix idx) (iy idx) (iz idx)) (Particle.pos p))
                    (Grid.getWeight g (Particle.pos p) delta
                     * Particle.mass p)) as (Zx & Zy & Zz).
        destruct Hmv as (Mx & My & Mz).
        unfold veq. cbn [add x y z]. rewrite Zx, Zy, Zz, Mx, My, Mz.
        repeat split; reflexivity.
      * exact Hfo.
      * lra.
    + split; [apply length_insert |].
      intros n c0 Hc0. destruct (Nat.eq_dec n (Z.to_nat f)) as [-> | Hne].
      * rewrite Ec' in Hc0. injection Hc0 as <-.
        eexists. split; [apply list_lookup_insert_eq; rewrite Hlen; lia |].
        cbn [Cell.mass]. lra.
      * exists c0. split; [| lra].
        rewrite list_lookup_insert_ne by congruence. exact Hc0.
    + intros _. eexists. split; [apply dataAt_insert_eq; rewrite Hlen; lia |].
      cbn [Cell.mass]. lra.
  - intros [= <-]. split; [exact HF |]. split; [apply massesGrow_refl |].
    discriminate.
Qed.

Lemma p2gDeltas_atRest g p Dinv deltas :
  Particle.vel p = ZeroVector3 -> 0 <= Particle.mass p ->
  forall d d',
    length d = length (Grid.data g) ->
    Forall cellAtRest d ->
    forEach (MPMSystem.p2gCell g p
               (Grid.cellPositionToIndex g (Particle.pos p))
               (mmultiply ZeroMatrix3 Dinv)) deltas d = Some d' ->
    Forall cellAtRest d' /\ massesGrow d d' /\
    forall delta, delta ∈ deltas -> covers g d' p delta.
Proof.
  intros Hvel Hm.
  induction deltas as [| delta deltas IH]; cbn [forEach];
    intros d d' Hlen HF H.
  - injection H as <-. split; [exact HF |].
    split; [apply massesGrow_refl |]. intros delta Hin. inversion Hin.
  - destruct (MPMSystem.p2gCell _ _ _ _ _ _) as [d1 |] eqn:E;
      [| discriminate].
    destruct (p2gCell_atRest g p _ Dinv d delta d1 Hlen HF Hvel eq_refl Hm E)
      as (HF1 & Hg1 & Hc1).
    destruct (IH d1 d' ltac:(destruct Hg1; congruence) HF1 H)
      as (HF' & Hg' & Hc').
    split; [exact HF' |].
    split; [eapply massesGrow_trans; eassumption |].
    intros delta' Hin. apply elem_of_cons in Hin as [-> | Hin].
    + eapply covers_massesGrow; eassumption.
    + now apply Hc'.
Qed.

Lemma p2gLoop_atRest g Dinv ps :
  Forall (fun p => atRest p /\ 0 <= Particle.mass p) ps ->
  forall d acc st,
    length d = length (Grid.data g) ->
    Forall cellAtRest d ->
    forEach (MPMSystem.p2gParticle g Dinv) ps (d, acc) = Some st ->
    Forall cellAtRest st.1 /\ massesGrow d st.1 /\
    Forall (fun p => forall delta,
                delta ∈ MPMSystem.neighbourDeltas (Grid.is2D g) ->
                covers g st.1 p delta) ps.
Proof.
  induction 1 as [| p ps [[Hvel HB] Hm] Hps IH]; cbn [forEach];
    intros d acc st Hlen HF H.
  - injection H as <-. split; [exact HF |].
    split; [apply massesGrow_refl | constructor].
  - unfold MPMSystem.p2gParticle at 1 in H. cbn [fst snd] in H.
    rewrite HB in H.
    destruct (forEach _ (MPMSystem.neighbourDeltas _) d) as [d1 |] eqn:E;
      cbn [mbind option_bind] in H; [| discriminate].
    destruct (p2gDeltas_atRest g
                (Particle.mk (Particle.active p) (Particle.mass p)
                   (Particle.pos p) (Particle.vel p)
                   (mmultiply ZeroMatrix3 Dinv))
                Dinv _ Hvel Hm d d1 Hlen HF E) as (HF1 & Hg1 & Hc1).
    destruct (IH d1 _ st ltac:(destruct Hg1; congruence) HF1 H)
      as (HF' & Hg' & Hc').
    split; [exact HF' |].
    split; [eapply massesGrow_trans; eassumption |].
    constructor; [| exact Hc'].
    intros delta Hin. eapply covers_massesGrow; [| exact Hg'].
    exact (Hc1 delta Hin).
Qed.

(** ** What the grid update makes of such cells *)

Lemma updateCell_atRest (size : IVector3) (dt : Q) (i j k : Z) (c : Cell.t)
      (w : Q) (is2D : bool) :
  cellAtRest c ->
  inBoundaryLayer (ix size) i = false ->
  inBoundaryLayer (iy size) j = false ->
  (is2D = false -> inBoundaryLayer (iz size) k = false) ->
  0 <= w -> (Cell.mass c <= 0 -> w == 0) ->
  veq (multiplyScalar
         (Cell.vel (MPMSystem.updateCell size is2D dt (mkIVector3 i j k) c)) w)
      (multiplyScalar (mkVector3 0 (- (98 # 10) * dt) 0) w).
Proof.
  intros ((Mx & My & Mz) & Hf & Hm) Bx By Bz Hw Hw0.
  unfold MPMSystem.updateCell, inBoundaryLayer in *.
  destruct (Qle_bool (Cell.mass c) 0) eqn:E.
  - apply Qle_bool_iff in E. specialize (Hw0 E).
    unfold veq. simpl. rewrite Hw0. repeat split; ring.
  - cbn [ix iy iz]. rewrite Bx, By.
    assert (Ez : negb is2D && ((k <? 2)%Z || (iz size - 2 <=? k)%Z) = false).
    { destruct is2D; [reflexivity |]. simpl. now apply Bz. }
    rewrite Ez, Hf. simpl in Mx, My, Mz.
    unfold veq. cbn [Cell.vel multiplyScalar divideScalar add GRAVITY
                     ZeroVector3 x y z].
    rewrite Mx, My, Mz. repeat split; ring.
Qed.

(** ** The neighbours of a particle deep inside *)

Lemma elem_of_neighbourDeltas (b : bool) (delta : IVector3) :
  delta ∈ MPMSystem.neighbourDeltas b ->
  (-1 <= ix delta <= 1)%Z /\ (-1 <= iy delta <= 1)%Z /\
  (if b then iz delta = 0%Z else (-1 <= iz delta <= 1)%Z).
Proof.
  destruct b; [rewrite neighbourDeltas_2D | rewrite neighbourDeltas_3D];
    intros H;
    repeat (apply elem_of_cons in H as [-> | H]; [simpl; lia |]);
    inversion H.
Qed.

Lemma floor_awayFromLayer (o cs : Q) (n : Z) (p : Q) :
  0 < cs -> awayFromLayer o cs n p ->
  (3 <= Qfloor ((p - o) / cs) <= n - 4)%Z.
Proof.
  intros Hc [Hlo Hhi].
  assert (Hu1 : 3 <= (p - o) / cs) by (apply Qle_shift_div_l; lra).
  assert (Hu2 : (p - o) / cs < inject_Z n - 3)
    by (apply Qlt_shift_div_r; lra).
  destruct (floor_bounds ((p - o) / cs)) as [Fl Fh].
  revert Hu1 Hu2 Fl Fh. generalize ((p - o) / cs). intros u Hu1 Hu2 Fl Fh.
  set (i := Qfloor u) in *. split.
  - destruct (Z_lt_le_dec i 3) as [Hi | Hi]; [| exact Hi].
    assert (Hq : inject_Z (i + 1) <= inject_Z 3) by (rewrite <- Zle_Qle; lia).
    rewrite inject_Z_plus in Hq.
    change (inject_Z 1) with 1 in Hq. change (inject_Z 3) with 3 in Hq. lra.
  - destruct (Z_lt_le_dec (n - 4) i) as [Hi | Hi]; [| exact Hi].
    assert (Hq : inject_Z (n + -3) <= inject_Z i) by (rewrite <- Zle_Qle; lia).
    rewrite inject_Z_plus in Hq. change (inject_Z (-3)) with (- (3)) in Hq.
    lra.
Qed.

Lemma awayFromLayer_awayFromEnds (o cs : Q) (n : Z) (p : Q) :
  0 < cs -> awayFromLayer o cs n p -> awayFromEnds o cs n p.
Proof. intros Hc [Hlo Hhi]. split; lra. Qed.

Lemma deepInside_interior (g : Grid.t) (pos : Vector3) :
  0 < Grid.cellSize g -> deepInside g pos ->
  interior g pos /\ inLayer g pos.
Proof.
  intros Hc (Hx & Hy & Hz & Hl). split; [| exact Hl].
  split; [| split].
  - now apply awayFromLayer_awayFromEnds.
  - now apply awayFromLayer_awayFromEnds.
  - intros E. apply awayFromLayer_awayFromEnds; [exact Hc | now apply Hz].
Qed.

Lemma inBoundaryLayer_false (n i : Z) :
  (2 <= i <= n - 3)%Z -> inBoundaryLayer n i = false.
Proof.
  intros H. unfold inBoundaryLayer. apply orb_false_iff. split.
  - apply Z.ltb_ge. lia.
  - apply Z.leb_gt. lia.
Qed.

(** The neighbour cells of a position deep inside are cells of the lattice
    outside the boundary layer. *)
Lemma deepInside_neighbour (g : Grid.t) (pos : Vector3) (delta : IVector3) :
  gridInvariant g -> deepInside g pos ->
  delta ∈ MPMSystem.neighbourDeltas (Grid.is2D g) ->
  let idx := iadd (Grid.cellPositionToIndex g pos) delta in
  inLattice g (ix idx) (iy idx) (iz idx) /\
  inBoundaryLayer (ix (Grid.size g)) (ix idx) = false /\
  inBoundaryLayer (iy (Grid.size g)) (iy idx) = false /\
  (Grid.is2D g = false ->
   inBoundaryLayer (iz (Grid.size g)) (iz idx) = false).
Proof.
  intros (Hc & Hsx & Hsy & Hsz & _) (Hx & Hy & Hz & Hl) Hd.
  apply elem_of_neighbourDeltas in Hd as (Dx & Dy & Dz).
  pose proof (floor_awayFromLayer _ _ _ _ Hc Hx) as Fx.
  pose proof (floor_awayFromLayer _ _ _ _ Hc Hy) as Fy.
  unfold inLattice, Grid.cellPositionToIndex, Grid.cellDimensions.
  cbn [floor divide sub iadd ix iy iz x y z].
  destruct (Grid.is2D g) eqn:E.
  - destruct (Hl E) as [Hlo Hhi].
    rewrite (floor_unit_layer (z (Grid.leftBottomBackPos g)) (z pos) Hlo Hhi).
    rewrite (is2D_true g E).
    split; [lia |]. split; [apply inBoundaryLayer_false; lia |].
    split; [apply inBoundaryLayer_false; lia | discriminate].
  - pose proof (floor_awayFromLayer _ _ _ _ Hc (Hz eq_refl)) as Fz.
    split; [lia |]. split; [apply inBoundaryLayer_false; lia |].
    split; [apply inBoundaryLayer_false; lia |].
    intros _. apply inBoundaryLayer_false. lia.
Qed.

(** ** The gather from velocities that agree where the weights count *)

Lemma g2pDeltas_weighted (g : Grid.t) (v pos0 : Vector3) deltas :
  (forall delta c,
      delta ∈ deltas ->
      Grid.getCell g (iadd (Grid.cellPositionToIndex g pos0) delta) = Some c ->
      veq (multiplyScalar (Cell.vel c) (Grid.getWeight g pos0 delta))
          (multiplyScalar v (Grid.getWeight g pos0 delta))) ->
  forall p p1,
    Particle.pos p = pos0 ->
    forEach (MPMSystem.g2pCell g (Grid.cellPositionToIndex g pos0)) deltas p
    = Some p1 ->
    veq (Particle.vel p1)
        (add (Particle.vel p)
             (multiplyScalar v (sumQ (Grid.getWeight g pos0 <$> deltas)))).
Proof.
  induction deltas as [| delta deltas IH]; cbn [forEach];
    intros Hcells p p1 Hpos H.
  - injection H as <-. change (sumQ (_ <$> [])) with 0.
    unfold veq. simpl. repeat split; ring.
  - destruct (MPMSystem.g2pCell _ _ _ _) as [p2 |] eqn:E; [| discriminate].
    pose proof (g2pCell_frame _ _ _ _ _ E) as (_ & _ & Hpos2).
    assert (IH' := IH (fun d c Hd => Hcells d c (list_elem_of_further _ _ _ Hd))
                      p2 p1 ltac:(congruence) H).
    change (sumQ (Grid.getWeight g pos0 <$> delta :: deltas))
      with (Grid.getWeight g pos0 delta
            + sumQ (Grid.getWeight g pos0 <$> deltas)).
    revert IH'. generalize (sumQ (Grid.getWeight g pos0 <$> deltas)).
    intros r IH'.
    assert (E2 : veq (Particle.vel p2)
                     (add (Particle.vel p)
                          (multiplyScalar v (Grid.getWeight g pos0 delta)))).
    { unfold MPMSystem.g2pCell in E.
      destruct (Grid.isValidCellIndex _ _ _ _) eqn:Ev; cbn [negb] in E.
      - destruct (Grid.getCell _ _) as [c |] eqn:Ec;
          cbn [mbind option_bind] in E; [| discriminate].
        injection E as <-. cbn [Particle.vel].
        destruct (Hcells delta c ltac:(left) Ec) as (Cx & Cy & Cz).
        rewrite Hpos. unfold veq. cbn [add x y z] in *.
        rewrite Cx, Cy, Cz. repeat split; reflexivity.
      - injection E as <-. rewrite (getWeight_invalid _ _ _ Ev).
        unfold veq. simpl. repeat split; ring. }
    destruct IH' as (Ix & Iy & Iz). destruct E2 as (Ex & Ey & Ez).
    unfold veq. cbn [add multiplyScalar x y z] in *.
    rewrite Ix, Iy, Iz, Ex, Ey, Ez. repeat split; ring.
Qed.

(** ** One step from rest *)

Lemma sameShape_withData (g g' : Grid.t) :
  sameShape g g' -> g' = Grid.withData g (Grid.data g').
Proof.
  destruct g, g'. unfold sameShape, Grid.withData. simpl.
  intros (-> & -> & -> & _). reflexivity.
Qed.

Lemma gridInvariant_withData (g : Grid.t) (d : list Cell.t) :
  gridInvariant g -> length d = length (Grid.data g) ->
  gridInvariant (Grid.withData g d).
Proof.
  intros Hinv Hlen. apply (gridInvariant_sameShape g); [| exact Hinv].
  repeat split. exact Hlen.
Qed.

Lemma particleToGrid_atRest (g : Grid.t) (ps : list Particle.t) :
  Forall cellAtRest (Grid.data g) ->
  Forall (fun p => atRest p /\ 0 <= Particle.mass p) ps ->
  exists d1,
    MPMSystem._particleToGrid g ps
    = Some (Grid.withData g d1,
            p2gParticleAfter (invert (Grid.getDQuadratic g)) <$> ps) /\
    length d1 = length (Grid.data g) /\
    Forall cellAtRest d1 /\
    Forall (fun p => forall delta,
                delta ∈ MPMSystem.neighbourDeltas (Grid.is2D g) ->
                covers g d1 p delta) ps.
Proof.
  intros HF Hps. unfold MPMSystem._particleToGrid.
  destruct (p2gLoop_spec g (invert (Grid.getDQuadratic g)) ps (Grid.data g) [])
    as (d1 & E & Hlen).
  destruct (p2gLoop_atRest g _ ps Hps (Grid.data g) [] _ eq_refl HF E)
    as (HF1 & _ & Hc).
  rewrite E. exists d1. split; [reflexivity |]. split; [exact Hlen |].
  split; [exact HF1 | exact Hc].
Qed.

Lemma updated_neighbour_velocity (g : Grid.t) (d1 : list Cell.t) (dt : Q)
      (g2 : Grid.t) (p : Particle.t) (delta : IVector3) :
  gridInvariant g -> length d1 = length (Grid.data g) ->
  Forall cellAtRest d1 ->
  MPMSystem._updateGrid (Grid.withData g d1) dt = Some g2 ->
  0 < Particle.mass p -> deepInside g (Particle.pos p) ->
  delta ∈ MPMSystem.neighbourDeltas (Grid.is2D g) ->
  covers g d1 p delta ->
  forall c2,
    Grid.getCell g2 (iadd (Grid.cellPositionToIndex g (Particle.pos p)) delta)
    = Some c2 ->
    veq (multiplyScalar (Cell.vel c2)
                        (Grid.getWeight g (Particle.pos p) delta))
        (multiplyScalar (mkVector3 0 (- (98 # 10) * dt) 0)
                        (Grid.getWeight g (Particle.pos p) delta)).
Proof.
  intros Hinv Hlen HF E2 Hm Hdeep Hd Hcov c2 Hc2.
  pose proof (gridInvariant_withData g d1 Hinv Hlen) as Hinv1.
  destruct (updateGrid_spec (Grid.withData g d1) dt
              ltac:(apply Hinv1)) as (g2' & E2' & _ & Hcells).
  rewrite E2 in E2'. injection E2' as <-.
  destruct (deepInside_neighbour g (Particle.pos p) delta Hinv Hdeep Hd)
    as (Hin & Bx & By & Bz).
  set (idx := iadd (Grid.cellPositionToIndex g (Particle.pos p)) delta) in *.
  specialize (Hcells (ix idx) (iy idx) (iz idx) Hin).
  change (mkIVector3 (ix idx) (iy idx) (iz idx)) with idx in Hcells.
  destruct (Hcov (isValidCellIndex_inLattice g _ _ _ Hinv Hin))
    as (c1 & Ec1 & Hle).
  fold idx in Ec1.
  change (Grid.getCell (Grid.withData g d1) idx)
    with (Grid.dataAt d1 (Grid._toFlatIndex g (ix idx) (iy idx) (iz idx)))
    in Hcells.
  rewrite Ec1, Hc2 in Hcells. cbn [fmap option_fmap option_map] in Hcells.
  injection Hcells as ->.
  destruct (getWeight_range g (Particle.pos p) delta) as [Hw _].
  apply updateCell_atRest; try assumption.
  - unfold Grid.dataAt in Ec1. destruct (_ <? 0)%Z; [discriminate |].
    exact (proj1 (Forall_lookup _ _) HF _ _ Ec1).
  - intros Hc1.
    destruct (Qlt_le_dec 0 (Grid.getWeight g (Particle.pos p) delta))
      as [Hpos | Hneg]; [| lra].
    pose proof (Qmult_lt_0_compat _ _ Hpos Hm). lra.
Qed.

Lemma resetCells_atRest (g : Grid.t) :
  Forall cellAtRest (Grid.data (Grid.resetCells g)).
Proof.
  simpl. apply Forall_fmap, Forall_forall. intros c _.
  split; [| split]; [| reflexivity | discriminate].
  repeat split; reflexivity.
Qed.

Lemma gridToParticle_from_rest (g : Grid.t) (d1 : list Cell.t) (dt : Q)
      (g2 : Grid.t) (b : Box3) (p p1 p' : Particle.t) :
  gridInvariant g -> length d1 = length (Grid.data g) ->
  Forall cellAtRest d1 ->
  MPMSystem._updateGrid (Grid.withData g d1) dt = Some g2 ->
  0 < Particle.mass p -> deepInside g (Particle.pos p) ->
  (forall delta, delta ∈ MPMSystem.neighbourDeltas (Grid.is2D g) ->
                 covers g d1 p delta) ->
  Particle.pos p1 = Particle.pos p ->
  MPMSystem.g2pParticle g2 dt b p1 = Some p' ->
  veq (Particle.vel p') (mkVector3 0 (- (98 # 10) * dt) 0).
Proof.
  intros Hinv Hlen HF E2 Hm Hdeep Hcov Hpos E.
  pose proof (updateGrid_sameShape _ _ _ E2) as Hs.
  pose proof (sameShape_withData _ _ Hs) as Eg2.
  assert (Hlen2 : length (Grid.data g2) = length (Grid.data g)).
  { destruct Hs as (_ & _ & _ & Hl). simpl in Hl. congruence. }
  change (Grid.withData (Grid.withData g d1) (Grid.data g2))
    with (Grid.withData g (Grid.data g2)) in Eg2.
  unfold MPMSystem.g2pParticle in E. rewrite Hpos in E.
  cbn [Particle.pos] in E.
  destruct (forEach _ _ _) as [q |] eqn:E1; cbn [mbind option_bind] in E;
    [| discriminate].
  injection E as <-. cbn [Particle.vel].
  assert (Hw : forall delta,
             Grid.getWeight g2 (Particle.pos p) delta
             = Grid.getWeight g (Particle.pos p) delta).
  { intros delta. rewrite Eg2. now apply getWeight_withData. }
  assert (Hi : Grid.cellPositionToIndex g2 (Particle.pos p)
               = Grid.cellPositionToIndex g (Particle.pos p))
    by (rewrite Eg2; reflexivity).
  assert (H2D : Grid.is2D g2 = Grid.is2D g) by (rewrite Eg2; reflexivity).
  apply (g2pDeltas_weighted g2 (mkVector3 0 (- (98 # 10) * dt) 0)
           (Particle.pos p)) in E1; [| | reflexivity].
  - cbn [Particle.vel] in E1.
    assert (Hsum : sumQ (Grid.getWeight g2 (Particle.pos p)
                           <$> MPMSystem.neighbourDeltas (Grid.is2D g2))
                   == 1).
    { destruct (deepInside_interior g (Particle.pos p) ltac:(apply Hinv) Hdeep)
        as [Hint Hl].
      apply (interior_weightSum g2 (Particle.pos p)).
      - rewrite Eg2. now apply gridInvariant_withData.
      - rewrite Eg2. exact Hint.
      - rewrite Eg2. exact Hl. }
    destruct E1 as (Ex & Ey & Ez). cbn [add multiplyScalar ZeroVector3 x y z]
      in Ex, Ey, Ez.
    unfold veq. cbn [x y z]. rewrite Ex, Ey, Ez, Hsum.
    repeat split; ring.
  - intros delta c Hd Hc. rewrite Hw, Hi in *. rewrite H2D in Hd.
    exact (updated_neighbour_velocity g d1 dt g2 p delta Hinv Hlen HF E2 Hm
             Hdeep Hd (Hcov delta Hd) c Hc).
Qed.


(** * Instances of the further properties *)

Lemma toFlatIndex_bijection_witness :
  let g := MPMSystem.grid (MPMSystem.new (1 # 10)) in
  (0 < ix (Grid.size g))%Z /\ (0 < iy (Grid.size g))%Z /\
  (0 <= Grid._toFlatIndex g 63 63 0 < 64 * 64 * 1)%Z /\
  exists i j k, inLattice g i j k /\ Grid._toFlatIndex g i j k = 4095%Z.
Proof.
  intros g.
  destruct (toFlatIndex_bijection g) as (Hr & _ & Ho);
    [reflexivity | reflexivity |].
  split; [reflexivity |]. split; [reflexivity |]. split.
  - apply (Hr 63 63 0)%Z. repeat split; vm_compute; congruence.
  - apply Ho. split; vm_compute; congruence.
Defined.

Lemma new_grid_cells_witness :
  let g := Grid.new (mkIVector3 64 64 1) (1 # 10) (mkVector3 0 0 0) in
  inLattice g 63 0 0 /\
  Grid.isValidCellIndex g 63 0 0 = true /\
  Grid.getCell g (mkIVector3 63 0 0)
  = Some (Cell.mk 0 ZeroVector3 ZeroVector3 ZeroVector3).
Proof.
  intros g.
  assert (H : inLattice g 63 0 0) by (repeat split; vm_compute; congruence).
  split; [exact H |].
  exact (new_grid_cells (mkIVector3 64 64 1) (1 # 10) (mkVector3 0 0 0)
                        63 0 0 H).
Defined.

Lemma resetCells_is_new_witness :
  length (Grid.data farCellMoving)
  = Z.to_nat (ix (Grid.size farCellMoving) * iy (Grid.size farCellMoving)
              * iz (Grid.size farCellMoving)) /\
  Grid.resetCells farCellMoving
  = Grid.new (Grid.size farCellMoving) (Grid.cellSize farCellMoving)
             (Grid.leftBottomBackPos farCellMoving).
Proof.
  assert (H : length (Grid.data farCellMoving)
              = Z.to_nat (ix (Grid.size farCellMoving)
                          * iy (Grid.size farCellMoving)
                          * iz (Grid.size farCellMoving)))
    by (vm_compute; reflexivity).
  split; [exact H |]. exact (resetCells_is_new farCellMoving H).
Defined.


Lemma cellIndexToPosition_round_trip_witness :
  let g := MPMSystem.grid (MPMSystem.new (1 # 10)) in
  0 < Grid.cellSize g /\
  Grid.cellPositionToIndex g (Grid.cellIndexToPosition g 5 7 0)
  = mkIVector3 5 7 0.
Proof.
  intros g. split; [reflexivity |].
  destruct (cellIndexToPosition_round_trip g 5 7 0) as (A & B & _ & C);
    [reflexivity |].
  specialize (C eq_refl eq_refl ltac:(reflexivity)).
  destruct (Grid.cellPositionToIndex g (Grid.cellIndexToPosition g 5 7 0))
    as [i j k].
  simpl in A, B, C. now rewrite A, B, C.
Defined.


Lemma cellIndexToPosition_inside_witness :
  let g := MPMSystem.grid (MPMSystem.new (1 # 10)) in
  gridInvariant g /\ inLattice g 63 63 0 /\
  (Grid.is2D g = true -> Grid.cellSize g <= 2) /\
  insideGrid g (Grid.cellIndexToPosition g 63 63 0).
Proof.
  intros g.
  assert (Hinv : gridInvariant g) by (apply gridInvariant_new; reflexivity).
  assert (Hin : inLattice g 63 63 0)
    by (repeat split; vm_compute; congruence).
  assert (Hc : Grid.is2D g = true -> Grid.cellSize g <= 2)
    by (intros _; vm_compute; congruence).
  split; [exact Hinv |]. split; [exact Hin |]. split; [exact Hc |].
  exact (cellIndexToPosition_inside g 63 63 0 Hinv Hin Hc).
Defined.

Lemma getWeight_bounds_witness :
  let g := MPMSystem.grid (MPMSystem.new (1 # 10)) in
  let pos := mkVector3 0 0 1 in
  let delta := mkIVector3 0 0 0 in
  let idx := iadd (Grid.cellPositionToIndex g pos) delta in
  Grid.isValidCellIndex g (ix idx) (iy idx) (iz idx) = false /\
  Grid.getWeight g pos delta = 0.
Proof.
  intros g pos delta idx.
  assert (H : Grid.isValidCellIndex g (ix idx) (iy idx) (iz idx) = false)
    by (vm_compute; reflexivity).
  split; [exact H |].
  destruct (getWeight_bounds g pos delta eq_refl) as (_ & _ & A).
  exact (A H).
Defined.

Lemma getWeightGradient_2D_witness :
  let g := MPMSystem.grid (MPMSystem.new (1 # 10)) in
  let pos := mkVector3 (1 # 4) (3 # 4) (1 # 4) in
  let delta := mkIVector3 1 0 0 in
  Grid.is2D g = true /\
  z (Grid.getWeightGradient g pos delta) == Grid.getWeight g pos delta /\
  Grid.getWeightGradient g (mkVector3 0 0 1) delta = ZeroVector3.
Proof.
  intros g pos delta. split; [reflexivity |]. split.
  - destruct (getWeightGradient_2D g pos delta eq_refl) as (_ & A).
    apply A. reflexivity.
  - destruct (getWeightGradient_2D g (mkVector3 0 0 1) delta eq_refl)
      as (A & _).
    apply A. vm_compute. reflexivity.
Defined.


Lemma particleToGrid_mass_witness :
  let s := seeded (1 # 10) in
  0 < Grid.cellSize (MPMSystem.grid s) /\
  exists g' ps',
    MPMSystem._particleToGrid (MPMSystem.grid s) (MPMSystem.particles s)
    = Some (g', ps') /\
    totalMass g'
    == totalMass (MPMSystem.grid s)
       + sumQ ((fun p => weightSum (MPMSystem.grid s) (Particle.pos p)
                         * Particle.mass p)
                 <$> MPMSystem.particles s).
Proof.
  intros s. split; [reflexivity |].
  exact (particleToGrid_mass (MPMSystem.grid s) (MPMSystem.particles s)
                             eq_refl).
Defined.

Lemma addParticles_inside_box_witness :
  0 < 1 # 2 /\
  exists new,
    MPMSystem.particles (seeded (1 # 10)) = [] ++ new /\
    Forall (fun p =>
              (0 < x (Particle.pos p) /\ x (Particle.pos p) < 1) /\
              (0 < y (Particle.pos p) /\ y (Particle.pos p) < 1) /\
              0 < z (Particle.pos p) /\
              z (Particle.pos p) == 0 + (1 # 2) / 2)
           new.
Proof.
  split; [reflexivity |].
  exact (addParticles_inside_box (MPMSystem.new (1 # 10))
           (mkVector3 0 0 0) (mkVector3 1 1 0) (1 # 2) 1 eq_refl).
Defined.

Lemma allInterior_seeded :
  allInterior (MPMSystem.grid (seeded (1 # 10)))
              (MPMSystem.particles (seeded (1 # 10))).
Proof.
  unfold allInterior. simpl.
  repeat (apply Forall_cons_2;
          [split;
           [split; [| split];
            [split; vm_compute; discriminate
            | split; vm_compute; discriminate
            | intros H; vm_compute in H; discriminate]
           | intros _; split; vm_compute; [discriminate | reflexivity]] |]).
  apply Forall_nil_2.
Qed.

Lemma deepInside_seeded :
  Forall (fun p => atRest p /\ 0 < Particle.mass p /\
                   deepInside (MPMSystem.grid (seeded (1 # 10)))
                              (Particle.pos p))
         (MPMSystem.particles (seeded (1 # 10))).
Proof.
  simpl.
  repeat (apply Forall_cons_2;
          [split; [split; reflexivity |];
           split; [reflexivity |];
           split; [| split; [| split]];
           [split; vm_compute; first [discriminate | reflexivity]
           | split; vm_compute; first [discriminate | reflexivity]
           | intros H; vm_compute in H; discriminate
           | intros _; split; vm_compute; [discriminate | reflexivity]] |]).
  apply Forall_nil_2.
Qed.


Lemma step_cells_settled_witness :
  gridInvariant (MPMSystem.grid (seeded (1 # 10))) /\ 0 < 1 # 100 /\
  exists s',
    MPMSystem.step (seeded (1 # 10)) (1 # 100) = Some s' /\
    Forall cellSettled (Grid.data (MPMSystem.grid s')).
Proof.
  assert (Hinv : gridInvariant (MPMSystem.grid (seeded (1 # 10))))
    by (apply gridInvariant_seeded; reflexivity).
  split; [exact Hinv |]. split; [reflexivity |].
  exact (step_cells_settled (seeded (1 # 10)) (1 # 100) Hinv eq_refl).
Defined.


Lemma step_without_particles_witness :
  let s := MPMSystem.new (1 # 10) in
  MPMSystem.particles s = [] /\ 0 < 1 # 100 /\
  MPMSystem.step s (1 # 100) = Some s.
Proof.
  intros s. split; [reflexivity |]. split; [reflexivity |].
  exact (step_without_particles s (1 # 100) eq_refl eq_refl eq_refl).
Defined.

Lemma steps_frame_witness :
  let s := seeded (1 # 10) in
  gridInvariant (MPMSystem.grid s) /\
  exists s',
    MPMSystem.steps s [1 # 100; - (1); 1 # 100] = Some s' /\
    (Particle.mass <$> MPMSystem.particles s') = [1; 1; 1; 1].
Proof.
  intros s.
  assert (Hinv : gridInvariant (MPMSystem.grid s))
    by (apply gridInvariant_seeded; reflexivity).
  split; [exact Hinv |].
  destruct (steps_frame s [1 # 100; - (1); 1 # 100] Hinv)
    as (s' & E & _ & _ & Hm).
  exists s'. split; [exact E | exact Hm].
Defined.

Lemma invert_getDQuadratic_witness :
  let g := MPMSystem.grid (MPMSystem.new (1 # 10)) in
  0 < Grid.cellSize g /\
  e0 (invert (Grid.getDQuadratic g)) == 400 /\
  e8 (invert (Grid.getDQuadratic g)) == 4.
Proof.
  intros g. split; [reflexivity |].
  destruct (invert_getDQuadratic g eq_refl) as (A & _ & B & _).
  split; [eapply Qeq_trans; [exact A |] | eapply Qeq_trans; [exact B |]];
    reflexivity.
Defined.

Lemma zoom2DView_guard_witness :
  let a := App.mk (App.mkCamera (- (16)) 16 8 (- (8)) 0) 2 1 1 in
  validView (App.camera a) /\
  validView (App.camera (App.zoom2DView a (1 # 5))) /\
  validView (App.camera (App.zoom2DView a 100)).
Proof.
  intros a.
  assert (Hv : validView (App.camera a))
    by (repeat split; vm_compute; reflexivity).
  split; [exact Hv |]. split.
  - destruct (zoom2DView_guard a (1 # 5)) as (_ & _ & _ & _ & A).
    exact (A Hv).
  - destruct (zoom2DView_guard a 100) as (_ & _ & _ & _ & A).
    exact (A Hv).
Defined.

Lemma zoom2DView_about_target_witness :
  let a := App.mk (App.mkCamera (- (16)) 16 8 (- (8)) 0) 2 1 1 in
  let c' := App.camera (App.zoom2DView a (1 # 5)) in
  0 < 32 /\ 0 < 16 /\ 2 < 32 - (1 # 5) * 2 /\ 2 < 16 - (1 # 5) /\
  App.orthoRight c' - App.orthoLeft c' == 32 - (1 # 5) * 2 /\
  App.orthoTop c' - App.orthoBottom c' == 16 - (1 # 5).
Proof.
  intros a c'.
  destruct (zoom2DView_about_target a (1 # 5)) as (A & B & _);
    [reflexivity | reflexivity | reflexivity | reflexivity |].
  do 4 (split; [reflexivity |]).
  split; [eapply Qeq_trans; [exact A |] | eapply Qeq_trans; [exact B |]];
    reflexivity.
Defined.

Lemma view_keeps_aspect_witness :
  let a := App.mk (App.mkCamera (- (16)) 16 8 (- (8)) 0) 2 1 1 in
  viewMatchesAspect a /\
  viewMatchesAspect (App.zoom2DView a (1 # 5)) /\
  viewMatchesAspect (App.handle_resize a (Some (800, 600))) /\
  App.aspectRatio (App.handle_resize a (Some (800, 600))) = 800 / 600.
Proof.
  intros a.
  assert (Hm : viewMatchesAspect a) by (vm_compute; reflexivity).
  destruct (view_keeps_aspect a) as (A & _ & B).
  split; [exact Hm |]. split.
  - apply B; [reflexivity | reflexivity | exact Hm].
  - apply A; vm_compute; discriminate.
Defined.

